(** * Zone-2 cardiac drift analyzer: a shallow embedding of zone2-analyzer.py

    Number model.  The program computes on pandas/numpy binary64 columns.
    Here a float is an exact rational extended with the IEEE special values
    (+inf, -inf, NaN): the special values behave as in IEEE 754, finite
    values are computed exactly.  Where a statement is about the computed
    number itself (the weighted average of line 71) every operation is
    rounded to binary64: [b64] and the module [B64].
    Integer columns (sample counts) are natural numbers, Python integers
    (durations) are [Z]. *)

From Stdlib Require Import Floats.
From Stdlib Require Import ZArith QArith Qround Qminmax Qabs Qpower Lqa Lia Ascii.
From stdpp Require Import base list strings pretty gmap.

Local Open Scope Q_scope.

(** ** Extended rationals *)

Inductive xq : Type :=
  | Fin (q : Q)
  | PInf
  | NInf
  | NaN.

Module XQ.

Definition is_nan (x : xq) : bool :=
  match x with NaN => true | _ => false end.

Definition Qltb (a b : Q) : bool := negb (Qle_bool b a).

Definition opp (x : xq) : xq :=
  match x with
  | Fin q => Fin (- q)
  | PInf => NInf
  | NInf => PInf
  | NaN => NaN
  end.

Definition add (x y : xq) : xq :=
  match x, y with
  | NaN, _ | _, NaN => NaN
  | PInf, NInf | NInf, PInf => NaN
  | PInf, _ | _, PInf => PInf
  | NInf, _ | _, NInf => NInf
  | Fin a, Fin b => Fin (a + b)
  end.

Definition sub (x y : xq) : xq := add x (opp y).

(** Sign of a value as a comparison with zero; [None] for NaN. *)
Definition sign (x : xq) : option comparison :=
  match x with
  | Fin q => Some (Qcompare q 0)
  | PInf => Some Gt
  | NInf => Some Lt
  | NaN => None
  end.

Definition mul (x y : xq) : xq :=
  match x, y with
  | Fin a, Fin b => Fin (a * b)
  | _, _ =>
      match sign x, sign y with
      | Some Gt, Some Gt | Some Lt, Some Lt => PInf
      | Some Gt, Some Lt | Some Lt, Some Gt => NInf
      | _, _ => NaN   (* a NaN operand, or infinity times zero *)
      end
  end.

(** Division; a zero divisor is the positive zero. *)
Definition div (x y : xq) : xq :=
  match x, y with
  | NaN, _ | _, NaN => NaN
  | Fin a, Fin b =>
      if Qeq_bool b 0 then
        match Qcompare a 0 with Eq => NaN | Gt => PInf | Lt => NInf end
      else Fin (a / b)
  | Fin _, _ => Fin 0
  | _, Fin b => if Qle_bool 0 b then x else opp x
  | _, _ => NaN       (* infinity over infinity *)
  end.

(** Comparisons: every comparison with NaN is false. *)
Definition ltb (x y : xq) : bool :=
  match x, y with
  | NaN, _ | _, NaN => false
  | Fin a, Fin b => Qltb a b
  | NInf, NInf => false
  | NInf, _ => true
  | _, PInf => match x with PInf => false | _ => true end
  | _, _ => false
  end.

Definition leb (x y : xq) : bool :=
  match x, y with
  | NaN, _ | _, NaN => false
  | Fin a, Fin b => Qle_bool a b
  | NInf, _ => true
  | _, PInf => true
  | _, _ => false
  end.

(** Same value: finite values are compared as rationals. *)
Definition eqv (x y : xq) : Prop :=
  match x, y with
  | Fin a, Fin b => a == b
  | PInf, PInf | NInf, NInf | NaN, NaN => True
  | _, _ => False
  end.

Definition of_nat (n : nat) : xq := Fin (inject_Z (Z.of_nat n)).
Definition of_Z (z : Z) : xq := Fin (inject_Z z).

End XQ.

Declare Scope xq_scope.
Delimit Scope xq_scope with xq.
Bind Scope xq_scope with xq.
Infix "+" := XQ.add : xq_scope.
Infix "-" := XQ.sub : xq_scope.
Infix "*" := XQ.mul : xq_scope.
Infix "/" := XQ.div : xq_scope.
Infix "<?" := XQ.ltb : xq_scope.
Infix "<=?" := XQ.leb : xq_scope.
Infix "=x=" := XQ.eqv (at level 70, no associativity) : type_scope.

(** ** Rounding and formatting of numbers *)

(** Nearest integer, ties to the even one. *)
Definition round_half_even (q : Q) : Z :=
  let f := Qfloor q in
  match Qcompare (q - inject_Z f) (1 # 2) with
  | Lt => f
  | Gt => (f + 1)%Z
  | Eq => if Z.even f then f else (f + 1)%Z
  end.

(** [round(x, 1)] *)
Definition round1 (x : xq) : xq :=
  match x with
  | Fin q => Fin (inject_Z (round_half_even (q * 10)) / 10)
  | _ => x
  end.

(** The format specification [:.1f] *)
Definition format_1f (x : xq) : string :=
  match x with
  | Fin q =>
      let r := Z.abs (round_half_even (q * 10)) in
      (if XQ.Qltb q 0 then "-" else "")
        +:+ pretty (r / 10)%Z +:+ "." +:+ pretty (r mod 10)%Z
  | PInf => "inf"
  | NInf => "-inf"
  | NaN => "nan"
  end.

(** ** The drift table (output of the estimator, input of the decision) *)

Record drift_row : Type := mk_drift_row {
  speed_bin : Q;            (* index: 'Speed (km/h)' *)
  hr_drift_bpm : xq;        (* 'HR drift (BPM)' *)
  hr_drift_pct : xq;        (* 'HR drift (%)' *)
  hr_drift_ci_width : xq;   (* 'HR drift CI(95%) width' *)
  bin_count : nat           (* 'bin_count' *)
}.

(** [Series.sum()]: missing values (NaN) are skipped, the empty sum is 0. *)
Definition series_sum (l : list xq) : xq :=
  fold_left XQ.add (List.filter (fun x => negb (XQ.is_nan x)) l) (Fin 0).

(** [Series.sum()] on an integer column. *)
Definition count_sum (l : list nat) : nat := fold_left Nat.add l 0%nat.

(** ** generate_workout_decisions *)

Record decision_record : Type := mk_decision {
  date : string;
  duration_min : Z;
  avg_drift_bpm : xq;
  drift_details : list (Q * (xq * nat));
  fitness_category : string;
  decision : string;
  next_duration_min : Z;
  paces_analyzed : list Q;
  notes : string
}.

(** Line 71: the sample-count-weighted average drift. *)
Definition avg_drift (drift_results : list drift_row) : xq :=
  let total := count_sum (map bin_count drift_results) in
  series_sum
    (map (fun r => (hr_drift_bpm r * (XQ.of_nat (bin_count r) / XQ.of_nat total))%xq)
         drift_results).

Definition categorize (avg : xq) : string :=
  if (avg <? Fin 3)%xq then "Elite"
  else if (avg <? Fin 4)%xq then "Excellent"
  else if (avg <? Fin 6)%xq then "Good"
  else if (avg <? Fin 8)%xq then "Fair"
  else "Poor".

(** Lines 86-101: (decision, next_duration, notes). *)
Definition make_decision (avg : xq) (duration : Z) : string * Z * string :=
  if (avg <? Fin 3)%xq then
    ("extend much", (duration + 10)%Z,
     "Drift " +:+ format_1f avg +:+ " bpm is super good. Ready to add 10 minutes.")
  else if (avg <=? Fin 5)%xq then
    ("extend", (duration + 5)%Z,
     "Drift " +:+ format_1f avg +:+ " bpm is good. Ready to add 5 minutes.")
  else if (avg <=? Fin 8)%xq then
    ("maintain", duration,
     "Drift " +:+ format_1f avg +:+ " bpm. Keep building base at "
       +:+ pretty duration +:+ " min.")
  else
    let next_duration := (duration - 5)%Z in
    ("reduce", next_duration,
     "Drift " +:+ format_1f avg +:+ " bpm is high. Drop to "
       +:+ pretty next_duration +:+ " min and rebuild.").

Definition generate_workout_decisions
    (drift_results : list drift_row) (duration : Z) (date_label : string)
    : decision_record :=
  let avg := avg_drift drift_results in
  let '(dec, next_duration, note) := make_decision avg duration in
  {| date := date_label;
     duration_min := duration;
     avg_drift_bpm := round1 avg;
     drift_details :=
       map (fun r => (speed_bin r, (hr_drift_bpm r, bin_count r))) drift_results;
     fitness_category := categorize avg;
     decision := dec;
     next_duration_min := next_duration;
     paces_analyzed := map speed_bin drift_results;
     notes := note |}.

(** ** calculate_cardiac_drift_in_bins *)

(** One row of the workout table, reduced to the two columns that line 27
    keeps.  Both are finite numbers: missing readings are not modelled. *)
Record sample : Type := mk_sample {
  hr : Q;       (* 'HR (bpm)' *)
  speed : Q     (* 'Speed (km/h)' *)
}.

(** Line 29: [(speed // 0.5) * 0.5]. *)
Definition bin_speed (s : sample) : sample :=
  {| hr := hr s; speed := inject_Z (Qfloor (speed s / (1 # 2))) * (1 # 2) |}.

(** [iloc[a:b]] and [iloc[a:]] for non-negative bounds. *)
Definition iloc_slice {A} (a b : nat) (l : list A) : list A :=
  take (b - a) (drop a l).
Definition iloc_from {A} (a : nat) (l : list A) : list A := drop a l.

(** Lines 31-32, [n] being the number of rows read on line 26. *)
Definition second_quarter {A} (n : nat) (rows : list A) : list A :=
  iloc_slice (n / 4) (n / 2) rows.
Definition fourth_quarter {A} (n : nat) (rows : list A) : list A :=
  iloc_from (3 * n / 4) rows.

(** [groupby("Speed (km/h)")]: the heart rates of every speed bucket, the
    buckets in increasing order, the rates of a bucket in row order. *)
Fixpoint group_add (k h : Q) (g : list (Q * list Q)) : list (Q * list Q) :=
  match g with
  | [] => [(k, [h])]
  | (k', hs) :: g' =>
      match Qcompare k k' with
      | Lt => (k, [h]) :: g
      | Eq => (k', hs ++ [h]) :: g'
      | Gt => (k', hs) :: group_add k h g'
      end
  end.

Definition groupby (rows : list sample) : list (Q * list Q) :=
  fold_left (fun g s => group_add (speed s) (hr s) g) rows [].

Definition sumQ (l : list Q) : Q := fold_right Qplus 0 l.

(** Group mean: sum over count. *)
Definition hr_mean (hs : list Q) : xq :=
  (Fin (sumQ hs) / XQ.of_nat (length hs))%xq.

(** Group variance with [ddof = 1]: undefined (NaN) for fewer than two
    values. *)
Definition hr_var (hs : list Q) : xq :=
  if (length hs <=? 1)%nat then NaN
  else
    let m := sumQ hs / inject_Z (Z.of_nat (length hs)) in
    XQ.div (Fin (sumQ (map (fun h => (h - m) * (h - m)) hs)))
           (XQ.of_nat (length hs - 1)).

(** A row of a quarter's result (lines 37-45). *)
Record quarter_row : Type := mk_quarter_row {
  q_speed : Q;                   (* index: 'Speed (km/h)' *)
  hr_avg : xq;                   (* 'HR (bpm) AVG' *)
  q_bin_count : nat;             (* 'bin_count' *)
  hr_stddev : xq;                (* 'HR (bpm) stddev' *)
  conf_interval_95_width : xq    (* 'conf_interval_95_width' *)
}.

(** Line 48: the reliability mask. *)
Definition reliable (r : quarter_row) : bool :=
  (conf_interval_95_width r <? Fin 1)%xq && (25 <? q_bin_count r)%nat.

(** [dropna] looks at every column of a row. *)
Definition row_has_nan (r : quarter_row) : bool :=
  XQ.is_nan (hr_avg r) || XQ.is_nan (hr_stddev r)
    || XQ.is_nan (conf_interval_95_width r).

Definition lookup_bin (k : Q) (t : list quarter_row) : option quarter_row :=
  List.find (fun r => Qeq_bool (q_speed r) k) t.

(** Line 51: left join on the index, then [dropna]. *)
Definition join_dropna (left right : list quarter_row)
    : list (quarter_row * quarter_row) :=
  omap (fun a =>
          match lookup_bin (q_speed a) right with
          | Some b =>
              if row_has_nan a || row_has_nan b then None else Some (a, b)
          | None => None          (* the _q4 columns are NaN *)
          end) left.

Section Estimator.

(** Library functions the source calls: [scipy.stats.t.ppf] and the square
    root of a non-negative finite number.  [xsqrt] stands both for the root
    taken by [std()] and for [** 0.5]: the two agree on NaN and on every
    non-negative argument, and the source applies them to nothing else (a
    variance, a count, a sum of squares). *)
Variable t_ppf : Q -> Z -> xq.
Variable sqrt_approx : Q -> Q.

Definition xsqrt (x : xq) : xq :=
  match x with
  | Fin q => if XQ.Qltb q 0 then NaN else Fin (sqrt_approx q)
  | PInf => PInf
  | NInf | NaN => NaN
  end.

(** Lines 37-45 for one bucket. *)
Definition aggregate (g : Q * list Q) : quarter_row :=
  let '(k, hs) := g in
  let n := length hs in
  let sd := xsqrt (hr_var hs) in
  {| q_speed := k;
     hr_avg := hr_mean hs;
     q_bin_count := n;
     hr_stddev := sd;
     conf_interval_95_width :=
       (Fin 2 * t_ppf (39 # 40) (Z.of_nat n - 1)
          * (sd / xsqrt (XQ.of_nat n)))%xq |}.

(** [quarter_results] before the filter of line 48. *)
Definition quarter_stats (quarter : list sample) : list quarter_row :=
  map aggregate (groupby quarter).

(** [quarter_results] as appended to [results]. *)
Definition quarter_results (quarter : list sample) : list quarter_row :=
  List.filter reliable (quarter_stats quarter).

(** Lines 52-57 for one joined row. *)
Definition drift_of (ab : quarter_row * quarter_row) : drift_row :=
  let '(a, b) := ab in
  {| speed_bin := q_speed a;
     hr_drift_bpm := (hr_avg b - hr_avg a)%xq;
     hr_drift_pct := ((hr_avg b - hr_avg a) / hr_avg a)%xq;
     hr_drift_ci_width :=
       xsqrt (conf_interval_95_width a * conf_interval_95_width a
              + conf_interval_95_width b * conf_interval_95_width b)%xq;
     bin_count := (q_bin_count a + q_bin_count b)%nat |}.

Definition calculate_cardiac_drift_in_bins (workout_data : list sample)
    : list drift_row :=
  let n := length workout_data in
  let binned := map bin_speed workout_data in
  let Q2 := second_quarter n binned in
  let Q4 := fourth_quarter n binned in
  map drift_of (join_dropna (quarter_results Q2) (quarter_results Q4)).

End Estimator.

(** ** Python exceptions *)

Inductive exn : Type :=
  | IndexError
  | ValueError
  | JSONDecodeError
  | AttributeError.

Inductive result (A : Type) : Type :=
  | Ok (a : A)
  | Raise (e : exn).
Arguments Ok {A} a.
Arguments Raise {A} e.

(** An exception ends the computation. *)
#[global] Instance result_bind : MBind result := fun A B k r =>
  match r with
  | Ok a => k a
  | Raise e => Raise e
  end.

(** ** get_minutes_from_duration_string

    Strings are sequences of ASCII characters. *)

(** [str.split(':')]: never empty, one more field than there are colons. *)
Fixpoint split_colon (s : string) : list string :=
  match s with
  | EmptyString => [EmptyString]
  | String c s' =>
      if Ascii.eqb c ":"%char then EmptyString :: split_colon s'
      else
        match split_colon s' with
        | f :: fs => String c f :: fs
        | [] => [String c EmptyString]
        end
  end.

(** [duration[i]] *)
Definition index {A} (l : list A) (i : nat) : result A :=
  match nth_error l i with
  | Some a => Ok a
  | None => Raise IndexError
  end.

(** White space as [int] strips it: tab to carriage return, and the
    blank. *)
Definition is_space (c : ascii) : bool :=
  let n := nat_of_ascii c in
  ((9 <=? n) && (n <=? 13) || (n =? 32))%nat.

Definition digit_value (c : ascii) : option Z :=
  let n := nat_of_ascii c in
  if ((48 <=? n) && (n <=? 57))%nat then Some (Z.of_nat n - 48)%Z else None.

Fixpoint drop_space (l : list ascii) : list ascii :=
  match l with
  | c :: l' => if is_space c then drop_space l' else l
  | [] => []
  end.

Definition strip (l : list ascii) : list ascii :=
  rev (drop_space (rev (drop_space l))).

(** Decimal digits, single underscores allowed between two digits.
    [after_digit] tells whether the previous character was a digit. *)
Fixpoint digits_value (acc : Z) (after_digit : bool) (l : list ascii)
    : option Z :=
  match l with
  | [] => if after_digit then Some acc else None
  | c :: l' =>
      match digit_value c with
      | Some d => digits_value (acc * 10 + d)%Z true l'
      | None =>
          if Ascii.eqb c "_"%char && after_digit
          then digits_value acc false l'
          else None
      end
  end.

(** [int(s)] in base 10 (the limit on the number of digits of recent
    interpreters is not modelled). *)
Definition py_int (s : string) : result Z :=
  let body := strip (String.list_ascii_of_string s) in
  let signed :=
    match body with
    | c :: l' =>
        if Ascii.eqb c "-"%char then (true, l')
        else if Ascii.eqb c "+"%char then (false, l')
        else (false, body)
    | [] => (false, body)
    end in
  match digits_value 0 false (snd signed) with
  | Some v => Ok (if fst signed then (- v)%Z else v)
  | None => Raise ValueError
  end.

(** Lines 124-125; operands are evaluated from left to right. *)
Definition get_minutes_from_duration_string (duration_string : string)
    : result Z :=
  let duration := split_colon duration_string in
  f0 ← index duration 0 ;
  h ← py_int f0 ;
  f1 ← index duration 1 ;
  m ← py_int f1 ;
  Ok (h * 60 + m)%Z.

(** The format the specification names, [HH:MM:SS]: three fields of two
    decimal digits. *)
Definition is_digit (c : ascii) : bool :=
  match digit_value c with Some _ => true | None => false end.

Definition is_hh_mm_ss (s : string) : bool :=
  match String.list_ascii_of_string s with
  | [h1; h2; c1; m1; m2; c2; s1; s2] =>
      is_digit h1 && is_digit h2 && Ascii.eqb c1 ":"%char
        && is_digit m1 && is_digit m2 && Ascii.eqb c2 ":"%char
        && is_digit s1 && is_digit s2
  | _ => false
  end.

(** ** save_decision_to_json *)

Unset Elimination Schemes.
Inductive json : Type :=
  | JNull
  | JBool (b : bool)
  | JNum (x : xq)
  | JStr (s : string)
  | JArr (items : list json)
  | JObj (members : list (string * json)).
Set Elimination Schemes.

(** A file is represented by the JSON document its text denotes, or is
    [Corrupt] when the text is not JSON. *)
Inductive file : Type :=
  | Corrupt
  | Doc (v : json).

Record world : Type := mk_world {
  files : gmap string file;
  stdout : list string
}.

Definition default_file_path : string := "workout_history.json".

(** [json.load(f)] *)
Definition json_load (f : file) : result json :=
  match f with
  | Doc v => Ok v
  | Corrupt => Raise JSONDecodeError
  end.

(** [history.append(decision)]: only a list has [append]. *)
Definition append (history decision : json) : result json :=
  match history with
  | JArr items => Ok (JArr (items ++ [decision]))
  | _ => Raise AttributeError
  end.

(** Lines 127-139. *)
Definition save_decision_to_json (decision : json) (file_path : string)
    (w : world) : result world :=
  history ← match files w !! file_path with
              | Some f => json_load f
              | None => Ok (JArr [])
              end ;
  history' ← append history decision ;
  Ok {| files := <[file_path := Doc history']> (files w);
        stdout := stdout w ++ ["Changes were saved to " +:+ file_path] |}.

(** The history a file holds, when it holds one. *)
Definition history_of (w : world) (file_path : string) : option (list json) :=
  match files w !! file_path with
  | Some (Doc (JArr items)) => Some items
  | _ => None
  end.

(** Concrete stand-ins for the two library functions, used to run the
    estimator on examples: a constant quantile (undefined without degrees of
    freedom) and the integer square root of the numerator over the
    denominator, exact on squares. *)
Definition t_ppf_ex (p : Q) (df : Z) : xq :=
  if (df <=? 0)%Z then NaN else Fin (2 # 1).
Definition sqrt_ex (q : Q) : Q :=
  Z.sqrt (Qnum q * Z.pos (Qden q)) # Qden q.

(** A drift-table row with only the columns the decision reads. *)
Definition ex_row (k d : Q) (c : nat) : drift_row :=
  mk_drift_row k (Fin d) (Fin 0) (Fin 0) c.

(** A workout of [n] rows at 10.1 km/h: 140 bpm in the first half, 150 bpm
    in the second. *)
Definition ex_workout (n : nat) : list sample :=
  map (fun i => mk_sample (if (i <? n / 2)%nat then 140 else 150) (101 # 10))
      (seq 0 n).

(** ** Vocabulary of the statements *)

(** The finite part of a value (0 for the special values). *)
Definition finite_part (x : xq) : Q :=
  match x with Fin q => q | _ => 0 end.

Definition is_finite (x : xq) : bool :=
  match x with Fin _ => true | _ => false end.

(** Smallest and largest element of a list (0 for the empty list). *)
Definition min_list (l : list Q) : Q :=
  match l with
  | [] => 0
  | x :: l' => fold_left Qmin l' x
  end.
Definition max_list (l : list Q) : Q :=
  match l with
  | [] => 0
  | x :: l' => fold_left Qmax l' x
  end.

Definition Qnat (n : nat) : Q := inject_Z (Z.of_nat n).

(** The two sums of the weighted average: drift times count, and count. *)
Definition drift_count_sum (tbl : list drift_row) : Q :=
  sumQ (map (fun r => finite_part (hr_drift_bpm r) * Qnat (bin_count r)) tbl).
Definition total_count (tbl : list drift_row) : Q :=
  sumQ (map (fun r => Qnat (bin_count r)) tbl).
Definition bucket_drifts (tbl : list drift_row) : list Q :=
  map (fun r => finite_part (hr_drift_bpm r)) tbl.

(** The terms of the series summed on line 71, for a finite table and a
    non-zero total [s]. *)
Definition weighted_terms (s : Q) (tbl : list drift_row) : list Q :=
  map (fun r => finite_part (hr_drift_bpm r) * (Qnat (bin_count r) / s)) tbl.

(** The group of a bucket, and the heart rates of a bucket in row order. *)
Definition find_group (k : Q) (g : list (Q * list Q)) : option (Q * list Q) :=
  List.find (fun x => Qeq_bool (fst x) k) g.
Definition bucket_rates (k : Q) (rows : list sample) : list Q :=
  map hr (List.filter (fun s => Qeq_bool (speed s) k) rows).

(** Keys strictly increasing. *)
Fixpoint keys_sorted (g : list (Q * list Q)) : Prop :=
  match g with
  | [] => True
  | x :: g' => Forall (fun y => fst x < fst y) g' /\ keys_sorted g'
  end.

(** Every row is the one its own bucket looks up: no bucket twice. *)
Definition unique_keys (t : list quarter_row) : Prop :=
  forall a k, In a t -> q_speed a == k -> lookup_bin k t = Some a.

(** The drift table has a row for bucket [k]. *)
Definition in_table (k : Q) (tbl : list drift_row) : Prop :=
  exists r, In r tbl /\ speed_bin r == k.

(** The string holds a colon. *)
Definition has_colon (s : string) : bool :=
  existsb (fun c => Ascii.eqb c ":"%char) (String.list_ascii_of_string s).

(** The ten decimal digits with their values. *)
Definition digits : list (ascii * Z) :=
  [("0"%char, 0%Z); ("1"%char, 1%Z); ("2"%char, 2%Z); ("3"%char, 3%Z);
   ("4"%char, 4%Z); ("5"%char, 5%Z); ("6"%char, 6%Z); ("7"%char, 7%Z);
   ("8"%char, 8%Z); ("9"%char, 9%Z)].

(** The combinations of category, decision and change of duration that
    the two ladders of lines 74-101 allow. *)
Definition ladder_outcomes : list (string * string * Z) :=
  [("Elite", "extend much", 10%Z); ("Excellent", "extend", 5%Z);
   ("Good", "extend", 5%Z); ("Good", "maintain", 0%Z);
   ("Fair", "maintain", 0%Z); ("Poor", "maintain", 0%Z);
   ("Poor", "reduce", (-5)%Z)].

(** One run after another: the decisions saved in order into one file. *)
Fixpoint save_all (decisions : list json) (file_path : string) (w : world)
    : result world :=
  match decisions with
  | [] => Ok w
  | d :: ds =>
      w' ← save_decision_to_json d file_path w ; save_all ds file_path w'
  end.

(** [':'.join(fields)] *)
Fixpoint join_colon (fields : list string) : string :=
  match fields with
  | [] => EmptyString
  | [f] => f
  | f :: fs => f +:+ ":" +:+ join_colon fs
  end.

(** Strictly increasing. *)
Fixpoint increasing (l : list Q) : Prop :=
  match l with
  | [] => True
  | x :: l' => Forall (fun y => x < y) l' /\ increasing l'
  end.

(** A field of 1 to 4300 decimal digits and nothing else (every
    interpreter converts that many digits), and the number it denotes. *)
Definition digit_field (f : string) : bool :=
  let l := String.list_ascii_of_string f in
  (1 <=? length l)%nat && (length l <=? 4300)%nat && forallb is_digit l.
Definition decimal_value (f : string) : Z :=
  fold_left (fun acc c => (acc * 10 + default 0 (digit_value c))%Z)
            (String.list_ascii_of_string f) 0%Z.

(** ** Binary64 arithmetic

    What the source computes with: every operation gives the exact result
    rounded to the nearest number with a 53-bit significand, ties to the
    even one, with gradual underflow below 2^-1022 and overflow to an
    infinity from 2^1024 on.  Signed zeros are not distinguished. *)

Definition pow2 (e : Z) : Q := Qpower 2 e.

(** The exponent [e] of a non-zero rational: 2^e <= |q| < 2^(e+1). *)
Definition ilog2 (q : Q) : Z :=
  let e0 := (Z.log2 (Z.abs (Qnum q)) - Z.log2 (Z.pos (Qden q)))%Z in
  if Qle_bool (pow2 e0) (Qabs q) then e0 else (e0 - 1)%Z.

(** Rounding to the nearest multiple of the spacing 2^(e-52) around [q],
    the exponent range not bounded above. *)
Definition b64_fin (q : Q) : Q :=
  if Qeq_bool q 0 then 0
  else
    let e := Z.max (ilog2 q) (-1022) in
    inject_Z (round_half_even (q / pow2 (e - 52))) * pow2 (e - 52).

(** Rounding to binary64. *)
Definition b64 (q : Q) : xq :=
  let y := b64_fin q in
  if Qle_bool (pow2 1024) (Qabs y)
  then (if Qle_bool 0 q then PInf else NInf)
  else Fin y.

Definition unit_roundoff : Q := pow2 (-53).

Module B64.

Definition round (x : xq) : xq :=
  match x with
  | Fin q => b64 q
  | _ => x
  end.

Definition add (x y : xq) : xq := round (XQ.add x y).
Definition sub (x y : xq) : xq := round (XQ.sub x y).
Definition mul (x y : xq) : xq := round (XQ.mul x y).
Definition div (x y : xq) : xq := round (XQ.div x y).

(** Conversion of an integer count to a float. *)
Definition of_nat (n : nat) : xq := b64 (Qnat n).

End B64.

(** Line 71 in binary64: the terms of the series, and their sum in row
    order starting from 0. *)
Definition weighted_terms_b64 (drift_results : list drift_row) : list xq :=
  let total := count_sum (map bin_count drift_results) in
  map (fun r => B64.mul (hr_drift_bpm r)
                  (B64.div (B64.of_nat (bin_count r)) (B64.of_nat total)))
      drift_results.

Definition series_sum_b64 (l : list xq) : xq :=
  fold_left B64.add (List.filter (fun x => negb (XQ.is_nan x)) l) (Fin 0).

Definition avg_drift_b64 (drift_results : list drift_row) : xq :=
  series_sum_b64 (weighted_terms_b64 drift_results).

(** An order of summation: which partial sums are formed.  The sum of a
    series is formed in some order over its terms and the initial 0; the
    order depends on the library build (row order, or several lanes). *)
Inductive sum_order : Type :=
  | Term (x : xq)
  | Plus (l r : sum_order).

Fixpoint terms_of (t : sum_order) : list xq :=
  match t with
  | Term x => [x]
  | Plus l r => terms_of l ++ terms_of r
  end.

Fixpoint sum_b64 (t : sum_order) : xq :=
  match t with
  | Term x => x
  | Plus l r => B64.add (sum_b64 l) (sum_b64 r)
  end.

(** The row order. *)
Definition row_order (l : list xq) : sum_order :=
  fold_left (fun t x => Plus t (Term x)) l (Term (Fin 0)).

(** A drift the products of line 71 neither overflow nor underflow on: 0,
    or of magnitude between 2^-900 and 2^900. *)
Definition drift_in_range (x : xq) : bool :=
  match x with
  | Fin d =>
      Qeq_bool d 0
      || Qle_bool (pow2 (-900)) (Qabs d) && Qle_bool (Qabs d) (pow2 900)
  | _ => false
  end.

(** Vocabulary of the error bound. *)

(** [(1 + 2^-53)^n]: the growth of the relative error over [n] roundings. *)
Fixpoint gpow (n : nat) : Q :=
  match n with
  | O => 1
  | S n' => (1 + unit_roundoff) * gpow n'
  end.

Fixpoint plus_count (t : sum_order) : nat :=
  match t with
  | Term _ => 0
  | Plus l r => S (plus_count l + plus_count r)
  end.

(** A finite value that binary64 represents without exponent bound: a
    multiple of 2^-1074. *)
Definition on_grid (x : xq) : Prop :=
  exists q k, x = Fin q /\ q == inject_Z k * pow2 (-1074).

Definition sum_abs (l : list xq) : Q :=
  sumQ (map (fun x => Qabs (finite_part x)) l).
Definition sum_fin (l : list xq) : Q := sumQ (map finite_part l).

(** ** Line 106 in binary64 *)

(** [numpy.rint]: the nearest integer, ties to the even one. *)
Definition rint (x : xq) : xq :=
  match x with
  | Fin q => Fin (inject_Z (round_half_even q))
  | _ => x
  end.

(** Line 106 in binary64: [round(avg_drift, 1)] on a numpy float multiplies
    by 10, rounds to an integer and divides by 10. *)
Definition round1_b64 (x : xq) : xq :=
  B64.div (rint (B64.mul x (Fin 10))) (Fin 10).

(** ** Machine floats

    The primitive floats of the proof assistant are the binary64 numbers
    of the processor; they are used to check the rounding defined above. *)

(** The value of a machine float. *)
Definition float_to_xq (f : float) : xq :=
  match Prim2SF f with
  | S754_zero _ => Fin 0
  | S754_infinity s => if s then NInf else PInf
  | S754_nan => NaN
  | S754_finite s m e =>
      Fin ((if s then -1 else 1) * inject_Z (Z.pos m) * pow2 e)
  end.

Definition xq_eqb (x y : xq) : bool :=
  match x, y with
  | Fin a, Fin b => Qeq_bool a b
  | PInf, PInf | NInf, NInf | NaN, NaN => true
  | _, _ => false
  end.

(** Operands of every kind: small integers, tenths, the counts and weights
    of the examples, subnormal numbers, the largest number, zero. *)
Definition machine_samples : list float :=
  [0; 1; 3; 10; 54; 126; 180; -2.5;
   0x1.999999999999ap-4; 0x1.3333333333333p-2; 0x1.6666666666666p-2;
   0x1.6666666666666p-1; 0x0.00000000007e8p-1022; 0x0.0000000000001p-1022;
   -0x0.0008p-1022; 0x1p-1022; 0x1p-600; 0x1.8p+700;
   0x1.1ccf385ebc8ap+1023; 0x1.fffffffffffffp+1023;
   0x1.0000000000001p0; 0x1.fffffffffffffp-1; 4503599627370497;
   9007199254740992]%float.

Definition machine_agrees (x y : float) : bool :=
  xq_eqb (float_to_xq (x + y)%float) (B64.add (float_to_xq x) (float_to_xq y))
  && xq_eqb (float_to_xq (x * y)%float)
            (B64.mul (float_to_xq x) (float_to_xq y))
  && xq_eqb (float_to_xq (x / y)%float)
            (B64.div (float_to_xq x) (float_to_xq y)).

(** * Properties *)

(** ** Comparisons of extended rationals *)

Module XQFacts.

Lemma Qltb_lt a b : XQ.Qltb a b = true <-> a < b.
Proof.
  unfold XQ.Qltb. rewrite negb_true_iff.
  destruct (Qle_bool b a) eqn:E.
  - apply Qle_bool_iff in E. split; [discriminate | lra].
  - split; [intros _ | reflexivity].
    destruct (Qlt_le_dec a b) as [H | H]; [exact H |].
    apply Qle_bool_iff in H. congruence.
Qed.

Lemma Qltb_ge a b : XQ.Qltb a b = false <-> b <= a.
Proof.
  unfold XQ.Qltb. rewrite negb_false_iff. apply Qle_bool_iff.
Qed.

Lemma Qle_bool_gt a b : Qle_bool a b = false <-> b < a.
Proof.
  rewrite <- Qltb_lt. unfold XQ.Qltb.
  destruct (Qle_bool a b); simpl; split; congruence.
Qed.

(** Below [lo] excludes being at least [hi] when [lo <= hi]. *)
Lemma leb_lower_ltb lo hi x :
  lo <= hi -> (Fin hi <=? x)%xq = true -> (x <? Fin lo)%xq = false.
Proof.
  destruct x as [q | | |]; simpl; try discriminate; try reflexivity.
  intros Hle H. apply Qle_bool_iff in H. apply Qltb_ge. lra.
Qed.

Lemma ltb_lower_ltb lo hi x :
  lo <= hi -> (Fin hi <? x)%xq = true -> (x <? Fin lo)%xq = false.
Proof.
  destruct x as [q | | |]; simpl; try discriminate; try reflexivity.
  intros Hle H. apply Qltb_lt in H. apply Qltb_ge. lra.
Qed.

Lemma ltb_lower_leb lo hi x :
  lo <= hi -> (Fin hi <? x)%xq = true -> (x <=? Fin lo)%xq = false.
Proof.
  destruct x as [q | | |]; simpl; try discriminate; try reflexivity.
  intros Hle H. apply Qltb_lt in H. apply Qle_bool_gt. lra.
Qed.

End XQFacts.

(** ** The decision generator *)

Lemma decision_of_make tbl d lbl :
  decision (generate_workout_decisions tbl d lbl)
    = (make_decision (avg_drift tbl) d).1.1
  /\ next_duration_min (generate_workout_decisions tbl d lbl)
    = (make_decision (avg_drift tbl) d).1.2.
Proof.
  unfold generate_workout_decisions.
  destruct (make_decision (avg_drift tbl) d) as [[dec next] note].
  split; reflexivity.
Qed.

Lemma make_decision_extend_much a d :
  (a <? Fin 3)%xq = true ->
  (make_decision a d).1 = ("extend much", (d + 10)%Z).
Proof. intros H. unfold make_decision. rewrite H. reflexivity. Qed.

Lemma make_decision_extend a d :
  (Fin 3 <=? a)%xq = true -> (a <=? Fin 5)%xq = true ->
  (make_decision a d).1 = ("extend", (d + 5)%Z).
Proof.
  intros H3 H5. unfold make_decision.
  rewrite (XQFacts.leb_lower_ltb 3 3 a), H5; [reflexivity | lra | exact H3].
Qed.

Lemma make_decision_maintain a d :
  (Fin 5 <? a)%xq = true -> (a <=? Fin 8)%xq = true ->
  (make_decision a d).1 = ("maintain", d).
Proof.
  intros H5 H8. unfold make_decision.
  rewrite (XQFacts.ltb_lower_ltb 3 5 a), (XQFacts.ltb_lower_leb 5 5 a), H8;
    [reflexivity | lra | exact H5 | lra | exact H5].
Qed.

Lemma make_decision_reduce a d :
  (Fin 8 <? a)%xq = true ->
  (make_decision a d).1 = ("reduce", (d - 5)%Z).
Proof.
  intros H8. unfold make_decision.
  rewrite (XQFacts.ltb_lower_ltb 3 8 a), (XQFacts.ltb_lower_leb 5 8 a),
    (XQFacts.ltb_lower_leb 8 8 a);
    [reflexivity | lra | exact H8 | lra | exact H8 | lra | exact H8].
Qed.

(** C1, as the code has it: an empty drift table raises nothing.  The
    weighted sum over no rows is 0, so the average drift is 0 and a decision
    record is returned: category Elite, decision extend much, ten minutes
    added to the duration, no paces analysed. *)
Theorem empty_table_decision (d : Z) (lbl : string) :
  let r := generate_workout_decisions [] d lbl in
  avg_drift [] = Fin 0
  /\ date r = lbl /\ duration_min r = d
  /\ avg_drift_bpm r =x= Fin 0
  /\ fitness_category r = "Elite"
  /\ decision r = "extend much"
  /\ next_duration_min r = (d + 10)%Z
  /\ drift_details r = [] /\ paces_analyzed r = []
  /\ notes r = "Drift 0.0 bpm is super good. Ready to add 10 minutes.".
Proof. cbv zeta. repeat split. Qed.

(** C1, refuted as stated: on the empty table of a 45-minute workout the
    generator returns a decision record (extend much, 55 minutes) instead of
    signalling insufficient data. *)
Lemma empty_table_no_error :
  exists r, generate_workout_decisions [] 45 "2024-05-01" = r
    /\ decision r = "extend much" /\ next_duration_min r = 55%Z.
Proof. eexists. split; [reflexivity | split; reflexivity]. Qed.

(** C2: the action and the next duration follow the ladder with boundaries
    3.0, 5.0 and 8.0: below 3 extend much (+10); from 3 to 5 inclusive
    extend (+5); above 5 up to 8 inclusive maintain; above 8 reduce (-5). *)
Theorem decision_ladder (tbl : list drift_row) (d : Z) (lbl : string) :
  let a := avg_drift tbl in
  let r := generate_workout_decisions tbl d lbl in
  ((a <? Fin 3)%xq = true ->
     decision r = "extend much" /\ next_duration_min r = (d + 10)%Z)
  /\ ((Fin 3 <=? a)%xq = true /\ (a <=? Fin 5)%xq = true ->
     decision r = "extend" /\ next_duration_min r = (d + 5)%Z)
  /\ ((Fin 5 <? a)%xq = true /\ (a <=? Fin 8)%xq = true ->
     decision r = "maintain" /\ next_duration_min r = d)
  /\ ((Fin 8 <? a)%xq = true ->
     decision r = "reduce" /\ next_duration_min r = (d - 5)%Z).
Proof.
  cbv zeta. destruct (decision_of_make tbl d lbl) as [-> ->].
  repeat split.
  - rewrite make_decision_extend_much by assumption. reflexivity.
  - rewrite make_decision_extend_much by assumption. reflexivity.
  - destruct H. rewrite make_decision_extend by assumption. reflexivity.
  - destruct H. rewrite make_decision_extend by assumption. reflexivity.
  - destruct H. rewrite make_decision_maintain by assumption. reflexivity.
  - destruct H. rewrite make_decision_maintain by assumption. reflexivity.
  - rewrite make_decision_reduce by assumption. reflexivity.
  - rewrite make_decision_reduce by assumption. reflexivity.
Qed.

(** C10: when the average drift exceeds 8 the next duration is the
    duration minus 5, whatever the duration; it is not clamped, so a
    duration of at most 5 gives a next duration of at most 0. *)
Theorem reduce_not_clamped (tbl : list drift_row) (d : Z) (lbl : string) :
  (Fin 8 <? avg_drift tbl)%xq = true ->
  next_duration_min (generate_workout_decisions tbl d lbl) = (d - 5)%Z
  /\ ((d <= 5)%Z ->
      (next_duration_min (generate_workout_decisions tbl d lbl) <= 0)%Z).
Proof.
  intros H. destruct (decision_of_make tbl d lbl) as [_ ->].
  rewrite make_decision_reduce by assumption. simpl. split; [reflexivity | lia].
Qed.

Lemma reduce_not_clamped_witness :
  (Fin 8 <? avg_drift [ex_row 10 9 60])%xq = true
  /\ next_duration_min (generate_workout_decisions [ex_row 10 9 60] 3 "d")
     = (-2)%Z.
Proof.
  split; [reflexivity |].
  apply (reduce_not_clamped [ex_row 10 9 60] 3 "d"). reflexivity.
Defined.

Lemma decision_ladder_witness :
  decision (generate_workout_decisions [ex_row 10 3 60] 45 "d") = "extend"
  /\ decision (generate_workout_decisions [ex_row 10 5 60] 45 "d") = "extend"
  /\ decision (generate_workout_decisions [ex_row 10 8 60] 45 "d") = "maintain".
Proof.
  destruct (decision_ladder [ex_row 10 3 60] 45 "d") as (_ & H3 & _ & _).
  destruct (decision_ladder [ex_row 10 5 60] 45 "d") as (_ & H5 & _ & _).
  destruct (decision_ladder [ex_row 10 8 60] 45 "d") as (_ & _ & H8 & _).
  split; [exact (proj1 (H3 (conj eq_refl eq_refl))) |].
  split; [exact (proj1 (H5 (conj eq_refl eq_refl))) |].
  exact (proj1 (H8 (conj eq_refl eq_refl))).
Defined.

(** ** The weighted average *)

Section WeightedAverage.

Lemma fold_left_Qplus_sumQ (l : list Q) (acc : Q) :
  fold_left Qplus l acc == acc + sumQ l.
Proof.
  revert acc. induction l as [| x l IH]; intros acc; simpl.
  - lra.
  - rewrite IH. lra.
Qed.

Lemma filter_nan_finite (l : list Q) :
  List.filter (fun x => negb (XQ.is_nan x)) (map Fin l) = map Fin l.
Proof.
  induction l as [| x l IH]; simpl; [reflexivity | now rewrite IH].
Qed.

Lemma fold_add_finite (l : list Q) (acc : Q) :
  fold_left XQ.add (map Fin l) (Fin acc) = Fin (fold_left Qplus l acc).
Proof.
  revert acc. induction l as [| x l IH]; intros acc; simpl;
    [reflexivity | apply IH].
Qed.

Lemma series_sum_finite (l : list Q) :
  series_sum (map Fin l) =x= Fin (sumQ l).
Proof.
  unfold series_sum. rewrite filter_nan_finite, fold_add_finite. simpl.
  rewrite fold_left_Qplus_sumQ. lra.
Qed.

Lemma count_sum_acc (l : list nat) (acc : nat) :
  fold_left Nat.add l acc = (acc + fold_left Nat.add l 0)%nat.
Proof.
  revert acc. induction l as [| x l IH]; intros acc; simpl.
  - lia.
  - rewrite (IH (acc + x)%nat), (IH x). lia.
Qed.

Lemma total_count_sum (tbl : list drift_row) :
  Qnat (count_sum (map bin_count tbl)) == total_count tbl.
Proof.
  unfold total_count, count_sum, Qnat.
  induction tbl as [| r tbl IH]; simpl; [reflexivity |].
  rewrite count_sum_acc, Nat2Z.inj_add, inject_Z_plus, IH. reflexivity.
Qed.

Lemma total_count_pos (tbl : list drift_row) :
  tbl <> [] ->
  Forall (fun r => (0 < bin_count r)%nat) tbl ->
  0 < total_count tbl.
Proof.
  intros Hne Hpos. unfold total_count.
  assert (Hnn : forall l : list drift_row,
            0 <= sumQ (map (fun r => Qnat (bin_count r)) l)).
  { induction l as [| r l IH]; simpl; [lra |].
    assert (0 <= Qnat (bin_count r)).
    { unfold Qnat. change 0 with (inject_Z 0). rewrite <- Zle_Qle. lia. }
    lra. }
  destruct tbl as [| r tbl]; [congruence |]. simpl.
  inversion Hpos as [| ? ? Hr _]; subst.
  assert (0 < Qnat (bin_count r)).
  { unfold Qnat. change 0 with (inject_Z 0). rewrite <- Zlt_Qlt. lia. }
  specialize (Hnn tbl). lra.
Qed.

Lemma weighted_terms_sum (s : Q) (tbl : list drift_row) :
  ~ s == 0 ->
  sumQ (weighted_terms s tbl) == drift_count_sum tbl / s.
Proof.
  intros Hs. unfold weighted_terms, drift_count_sum.
  induction tbl as [| r tbl IH]; simpl.
  - field. exact Hs.
  - rewrite IH. field. exact Hs.
Qed.

Lemma weighted_terms_lower (s m : Q) (tbl : list drift_row) :
  0 < s ->
  Forall (fun r => m <= finite_part (hr_drift_bpm r)) tbl ->
  m * (total_count tbl / s) <= sumQ (weighted_terms s tbl).
Proof.
  intros Hs Hall. unfold weighted_terms, total_count.
  induction Hall as [| r tbl Hr _ IH]; simpl.
  - unfold Qdiv. lra.
  - assert (Hc : 0 <= Qnat (bin_count r) / s).
    { apply Qle_shift_div_l; [exact Hs |].
      unfold Qnat. rewrite Qmult_0_l.
      change 0 with (inject_Z 0). rewrite <- Zle_Qle. lia. }
    assert (Hm : m * (Qnat (bin_count r) / s)
                 <= finite_part (hr_drift_bpm r) * (Qnat (bin_count r) / s)).
    { apply Qmult_le_compat_r; assumption. }
    assert (Hd : forall a b, (a + b) / s == a / s + b / s).
    { intros a b. field. lra. }
    rewrite Hd. lra.
Qed.

Lemma weighted_terms_upper (s m : Q) (tbl : list drift_row) :
  0 < s ->
  Forall (fun r => finite_part (hr_drift_bpm r) <= m) tbl ->
  sumQ (weighted_terms s tbl) <= m * (total_count tbl / s).
Proof.
  intros Hs Hall. unfold weighted_terms, total_count.
  induction Hall as [| r tbl Hr _ IH]; simpl.
  - unfold Qdiv. lra.
  - assert (Hc : 0 <= Qnat (bin_count r) / s).
    { apply Qle_shift_div_l; [exact Hs |].
      unfold Qnat. rewrite Qmult_0_l.
      change 0 with (inject_Z 0). rewrite <- Zle_Qle. lia. }
    assert (Hm : finite_part (hr_drift_bpm r) * (Qnat (bin_count r) / s)
                 <= m * (Qnat (bin_count r) / s)).
    { apply Qmult_le_compat_r; assumption. }
    assert (Hd : forall a b, (a + b) / s == a / s + b / s).
    { intros a b. field. lra. }
    rewrite Hd. lra.
Qed.

Lemma fold_Qmin_le (l : list Q) (a : Q) :
  fold_left Qmin l a <= a /\ Forall (fun x => fold_left Qmin l a <= x) l.
Proof.
  revert a. induction l as [| x l IH]; intros a; simpl.
  - split; [lra | constructor].
  - destruct (IH (Qmin a x)) as [H1 H2].
    pose proof (Q.le_min_l a x). pose proof (Q.le_min_r a x).
    split; [lra |]. constructor; [lra | exact H2].
Qed.

Lemma fold_Qmax_ge (l : list Q) (a : Q) :
  a <= fold_left Qmax l a /\ Forall (fun x => x <= fold_left Qmax l a) l.
Proof.
  revert a. induction l as [| x l IH]; intros a; simpl.
  - split; [lra | constructor].
  - destruct (IH (Qmax a x)) as [H1 H2].
    pose proof (Q.le_max_l a x). pose proof (Q.le_max_r a x).
    split; [lra |]. constructor; [lra | exact H2].
Qed.

Lemma min_list_le (l : list Q) : Forall (fun x => min_list l <= x) l.
Proof.
  destruct l as [| a l]; simpl; [constructor |].
  destruct (fold_Qmin_le l a). constructor; assumption.
Qed.

Lemma max_list_ge (l : list Q) : Forall (fun x => x <= max_list l) l.
Proof.
  destruct l as [| a l]; simpl; [constructor |].
  destruct (fold_Qmax_ge l a). constructor; assumption.
Qed.

(** With a positive total and finite drifts every term of the series is
    finite, so nothing is skipped by the sum. *)
Lemma avg_drift_terms (n : nat) (tbl : list drift_row) :
  (0 < n)%nat ->
  Forall (fun r => is_finite (hr_drift_bpm r) = true) tbl ->
  map (fun r => (hr_drift_bpm r * (XQ.of_nat (bin_count r) / XQ.of_nat n))%xq)
      tbl
  = map Fin (weighted_terms (Qnat n) tbl).
Proof.
  intros Hn Hfin. unfold weighted_terms.
  induction Hfin as [| r tbl Hr _ IH]; [reflexivity |].
  cbn [map]. f_equal; [| exact IH].
  destruct (hr_drift_bpm r) as [d | | |]; try discriminate. simpl.
  destruct (Qeq_bool (inject_Z (Z.of_nat n)) 0) eqn:E; [| reflexivity].
  apply Qeq_bool_iff in E. exfalso.
  assert (0 < inject_Z (Z.of_nat n)).
  { change 0 with (inject_Z 0). rewrite <- Zlt_Qlt. lia. }
  lra.
Qed.

End WeightedAverage.

(** ** The estimator: quarters *)

(** C5: the two slices the estimator aggregates are the rows at the
    indices n/4 <= j < n/2 and 3n/4 <= j < n of the binned table, in order,
    with floor division. *)
Theorem quarters_are_index_ranges
    (t_ppf : Q -> Z -> xq) (sqrt_approx : Q -> Q) (data : list sample) :
  let n := length data in
  let binned := map bin_speed data in
  calculate_cardiac_drift_in_bins t_ppf sqrt_approx data
    = map (drift_of sqrt_approx)
        (join_dropna
           (quarter_results t_ppf sqrt_approx (second_quarter n binned))
           (quarter_results t_ppf sqrt_approx (fourth_quarter n binned)))
  /\ length (second_quarter n binned) = (n / 2 - n / 4)%nat
  /\ length (fourth_quarter n binned) = (n - 3 * n / 4)%nat
  /\ (forall i : nat,
        second_quarter n binned !! i
        = if decide (n / 4 + i < n / 2)%nat
          then binned !! (n / 4 + i)%nat else None)
  /\ (forall i : nat,
        fourth_quarter n binned !! i
        = if decide (3 * n / 4 + i < n)%nat
          then binned !! (3 * n / 4 + i)%nat else None).
Proof.
  intros n binned.
  assert (Hlen : length binned = n) by apply length_map.
  assert (H2 : (n / 2 <= n)%nat) by (apply Nat.Div0.div_le_upper_bound; lia).
  assert (H4 : (n / 4 <= n / 2)%nat).
  { apply Nat.div_le_compat_l. lia. }
  split; [reflexivity |].
  unfold second_quarter, fourth_quarter, iloc_slice, iloc_from.
  split; [rewrite length_take, length_drop; lia |].
  split; [rewrite length_drop; lia |].
  split; intros i.
  - destruct (decide (n / 4 + i < n / 2)%nat) as [Hi | Hi].
    + rewrite lookup_take_lt by lia. apply lookup_drop.
    + apply lookup_take_ge. lia.
  - rewrite lookup_drop.
    destruct (decide (3 * n / 4 + i < n)%nat) as [Hi | Hi]; [reflexivity |].
    apply lookup_ge_None. lia.
Qed.

(** ** The estimator: grouping *)

Section GroupBy.

Lemma find_group_above (k : Q) (g : list (Q * list Q)) :
  Forall (fun y => k < fst y) g -> find_group k g = None.
Proof.
  induction 1 as [| x g Hx _ IH]; simpl; [reflexivity |].
  destruct (Qeq_bool (fst x) k) eqn:E; [| exact IH].
  apply Qeq_bool_iff in E. lra.
Qed.

Lemma group_add_above (m k h : Q) (g : list (Q * list Q)) :
  m < k -> Forall (fun y => m < fst y) g ->
  Forall (fun y => m < fst y) (group_add k h g).
Proof.
  intros Hk. induction 1 as [| [k' hs] g Hx Hg IH]; simpl.
  - constructor; [exact Hk | constructor].
  - destruct (Qcompare k k') eqn:E.
    + constructor; assumption.
    + constructor; [exact Hk | constructor; assumption].
    + constructor; assumption.
Qed.

Lemma group_add_sorted (k h : Q) (g : list (Q * list Q)) :
  keys_sorted g -> keys_sorted (group_add k h g).
Proof.
  induction g as [| [k' hs] g IH]; simpl.
  - intros _. split; [constructor | exact I].
  - intros [Hall Hs]. destruct (Qcompare k k') eqn:E.
    + split; assumption.
    + apply Qlt_alt in E. simpl. split; [| split; assumption].
      constructor; [exact E |].
      eapply Forall_impl; [exact Hall |]. simpl. intros y Hy. lra.
    + apply Qgt_alt in E. simpl. split; [| apply IH; exact Hs].
      apply group_add_above; assumption.
Qed.

Lemma groupby_snoc (rows : list sample) (s : sample) :
  groupby (rows ++ [s]) = group_add (speed s) (hr s) (groupby rows).
Proof. unfold groupby. rewrite fold_left_app. reflexivity. Qed.

Lemma groupby_sorted (rows : list sample) : keys_sorted (groupby rows).
Proof.
  induction rows as [| s rows IH] using rev_ind.
  - exact I.
  - rewrite groupby_snoc. apply group_add_sorted, IH.
Qed.

(** Adding a row appends its rate to the group of its bucket, which is
    created when it does not exist, and touches no other group. *)
Lemma find_group_add (k0 k h : Q) (g : list (Q * list Q)) :
  keys_sorted g ->
  find_group k0 (group_add k h g)
  = if Qeq_bool k k0
    then Some (match find_group k0 g with
               | Some (k', hs) => (k', hs ++ [h])
               | None => (k, [h])
               end)
    else find_group k0 g.
Proof.
  induction g as [| [k' hs] g IH]; simpl.
  - intros _. destruct (Qeq_bool k k0); reflexivity.
  - intros [Hall Hs]. destruct (Qcompare k k') eqn:E.
    + apply Qeq_alt in E. simpl.
      destruct (Qeq_bool k' k0) eqn:E'.
      * apply Qeq_bool_iff in E'.
        assert (Hk : Qeq_bool k k0 = true) by (apply Qeq_bool_iff; lra).
        rewrite Hk. reflexivity.
      * assert (Hk : Qeq_bool k k0 = false).
        { destruct (Qeq_bool k k0) eqn:Hk; [| reflexivity].
          apply Qeq_bool_iff in Hk.
          assert (Qeq_bool k' k0 = true) by (apply Qeq_bool_iff; lra).
          congruence. }
        rewrite Hk. reflexivity.
    + apply Qlt_alt in E. simpl.
      destruct (Qeq_bool k k0) eqn:Hk.
      * apply Qeq_bool_iff in Hk.
        assert (Hk' : Qeq_bool k' k0 = false).
        { destruct (Qeq_bool k' k0) eqn:Hk'; [| reflexivity].
          apply Qeq_bool_iff in Hk'. lra. }
        rewrite Hk'.
        rewrite (find_group_above k0 g); [reflexivity |].
        eapply Forall_impl; [exact Hall |]. simpl. intros y Hy. lra.
      * reflexivity.
    + apply Qgt_alt in E. simpl.
      destruct (Qeq_bool k' k0) eqn:Hk'.
      * apply Qeq_bool_iff in Hk'.
        assert (Hk : Qeq_bool k k0 = false).
        { destruct (Qeq_bool k k0) eqn:Hk; [| reflexivity].
          apply Qeq_bool_iff in Hk. lra. }
        rewrite Hk. reflexivity.
      * apply IH. exact Hs.
Qed.

Lemma bucket_rates_snoc (k : Q) (rows : list sample) (s : sample) :
  bucket_rates k (rows ++ [s])
  = bucket_rates k rows ++ (if Qeq_bool (speed s) k then [hr s] else []).
Proof.
  unfold bucket_rates. rewrite List.filter_app, List.map_app. simpl.
  destruct (Qeq_bool (speed s) k); reflexivity.
Qed.

(** The group of bucket [k] holds the rates of the rows of that bucket, in
    row order; there is a group exactly when there is such a row. *)
Lemma groupby_rates (k : Q) (rows : list sample) :
  match find_group k (groupby rows) with
  | Some (k', hs) => k' == k /\ hs = bucket_rates k rows /\ hs <> []
  | None => bucket_rates k rows = []
  end.
Proof.
  induction rows as [| s rows IH] using rev_ind; [reflexivity |].
  rewrite groupby_snoc, find_group_add by apply groupby_sorted.
  rewrite bucket_rates_snoc.
  destruct (Qeq_bool (speed s) k) eqn:E.
  - destruct (find_group k (groupby rows)) as [[k' hs] |].
    + destruct IH as (Hk & -> & Hne). repeat split; [exact Hk |].
      intros H. apply app_eq_nil in H. destruct H; discriminate.
    + rewrite IH. apply Qeq_bool_iff in E. repeat split; [exact E |].
      discriminate.
  - rewrite app_nil_r. exact IH.
Qed.

End GroupBy.

(** ** The estimator: reliability filter and join *)

Lemma lookup_bin_Some (k : Q) (t : list quarter_row) (a : quarter_row) :
  lookup_bin k t = Some a -> In a t /\ q_speed a == k.
Proof.
  intros H. apply List.find_some in H. destruct H as [Hin Hk].
  split; [exact Hin | apply Qeq_bool_iff, Hk].
Qed.

Lemma lookup_bin_exists (k : Q) (t : list quarter_row) (a : quarter_row) :
  In a t -> q_speed a == k -> exists b, lookup_bin k t = Some b.
Proof.
  intros Hin Hk. destruct (lookup_bin k t) as [b |] eqn:E; [eauto |].
  pose proof (List.find_none _ _ E a Hin) as Hn. simpl in Hn.
  apply Qeq_bool_iff in Hk. congruence.
Qed.

Lemma find_group_unique (k : Q) (g : list (Q * list Q)) (x : Q * list Q) :
  keys_sorted g -> In x g -> fst x == k -> find_group k g = Some x.
Proof.
  induction g as [| y g IH]; simpl; [contradiction |].
  intros [Hall Hs] [-> | Hin] Hk.
  - apply Qeq_bool_iff in Hk. rewrite Hk. reflexivity.
  - destruct (Qeq_bool (fst y) k) eqn:E; [| apply IH; assumption].
    apply Qeq_bool_iff in E.
    rewrite List.Forall_forall in Hall. specialize (Hall x Hin). lra.
Qed.

Lemma unique_keys_filter (p : quarter_row -> bool) (t : list quarter_row) :
  unique_keys t -> unique_keys (List.filter p t).
Proof.
  intros Hu a k Hin Hk.
  destruct (lookup_bin_exists k _ a Hin Hk) as [b Hb].
  rewrite Hb. f_equal.
  destruct (lookup_bin_Some _ _ _ Hb) as [Hbin Hbk].
  apply List.filter_In in Hin, Hbin.
  pose proof (Hu a k (proj1 Hin) Hk) as Ha.
  pose proof (Hu b k (proj1 Hbin) Hbk) as Hb'.
  congruence.
Qed.

Module NaNFacts.

Lemma mul_not_nan (x y : xq) :
  XQ.is_nan (x * y)%xq = false -> XQ.is_nan y = false.
Proof.
  destruct y; try reflexivity.
  destruct x as [q | | |]; simpl; try discriminate.
  destruct (Qcompare q 0); discriminate.
Qed.

Lemma div_not_nan (x y : xq) :
  XQ.is_nan (x / y)%xq = false -> XQ.is_nan x = false.
Proof. destruct x; try reflexivity. destruct y; discriminate. Qed.

Lemma ltb_not_nan (x y : xq) :
  (x <? y)%xq = true -> XQ.is_nan x = false.
Proof. destruct x; try reflexivity. destruct y; discriminate. Qed.

End NaNFacts.

Lemma Qnat_pos (n : nat) : (0 < n)%nat -> 0 < Qnat n.
Proof.
  intros H. unfold Qnat. change 0 with (inject_Z 0). rewrite <- Zlt_Qlt. lia.
Qed.

Lemma div_by_count (a : Q) (n : nat) :
  (0 < n)%nat -> (Fin a / XQ.of_nat n)%xq = Fin (a / Qnat n).
Proof.
  intros H. apply Qnat_pos in H. unfold XQ.of_nat. simpl.
  fold (Qnat n). destruct (Qeq_bool (Qnat n) 0) eqn:E; [| reflexivity].
  apply Qeq_bool_iff in E. lra.
Qed.

Section EstimatorFacts.

Variable t_ppf : Q -> Z -> xq.
Variable sqrt_approx : Q -> Q.

Local Abbreviation agg := (aggregate t_ppf sqrt_approx).
Local Abbreviation stats := (quarter_stats t_ppf sqrt_approx).
Local Abbreviation results := (quarter_results t_ppf sqrt_approx).

Lemma q_speed_aggregate (x : Q * list Q) : q_speed (agg x) = fst x.
Proof. destruct x. reflexivity. Qed.

Lemma lookup_bin_aggregate (k : Q) (g : list (Q * list Q)) :
  lookup_bin k (map agg g) = option_map agg (find_group k g).
Proof.
  induction g as [| x g IH]; simpl; [reflexivity |].
  rewrite q_speed_aggregate. destruct (Qeq_bool (fst x) k); [reflexivity |].
  exact IH.
Qed.

Lemma quarter_stats_unique (quarter : list sample) :
  unique_keys (stats quarter).
Proof.
  intros a k Hin Hk. unfold quarter_stats in *.
  apply List.in_map_iff in Hin. destruct Hin as (x & <- & Hx).
  rewrite q_speed_aggregate in Hk.
  rewrite lookup_bin_aggregate,
    (find_group_unique k _ x (groupby_sorted quarter) Hx Hk).
  reflexivity.
Qed.

(** A reliable row of a quarter holds no undefined value, so [dropna]
    keeps it. *)
Lemma reliable_no_nan (quarter : list sample) (a : quarter_row) :
  In a (stats quarter) -> reliable a = true -> row_has_nan a = false.
Proof.
  intros Hin Hr. apply List.in_map_iff in Hin.
  destruct Hin as ([k hs] & <- & _).
  unfold reliable in Hr. apply andb_true_iff in Hr. destruct Hr as [Hw Hc].
  apply Nat.ltb_lt in Hc. simpl in Hc.
  pose proof (NaNFacts.ltb_not_nan _ _ Hw) as Hwn.
  unfold row_has_nan. rewrite Hwn. simpl in Hwn |- *.
  apply NaNFacts.mul_not_nan, NaNFacts.div_not_nan in Hwn. rewrite Hwn.
  unfold hr_mean. rewrite div_by_count by lia. reflexivity.
Qed.

End EstimatorFacts.

Lemma in_join_dropna (L R : list quarter_row) (a b : quarter_row) :
  In (a, b) (join_dropna L R)
  <-> In a L /\ lookup_bin (q_speed a) R = Some b
      /\ row_has_nan a = false /\ row_has_nan b = false.
Proof.
  unfold join_dropna. rewrite <- list_elem_of_In, list_elem_of_omap.
  split.
  - intros (a' & Hin & H). apply list_elem_of_In in Hin.
    destruct (lookup_bin (q_speed a') R) as [b' |] eqn:E; [| discriminate].
    destruct (row_has_nan a' || row_has_nan b') eqn:En; [discriminate |].
    injection H as -> ->. apply orb_false_iff in En. tauto.
  - intros (Hin & E & Ha & Hb). exists a.
    split; [apply list_elem_of_In, Hin |].
    rewrite E, Ha, Hb. reflexivity.
Qed.

(** The rows of the final table come from the joined pairs. *)
Lemma in_drift_table (t_ppf : Q -> Z -> xq) (sqrt_approx : Q -> Q)
    (data : list sample) (r : drift_row) :
  let n := length data in
  let binned := map bin_speed data in
  In r (calculate_cardiac_drift_in_bins t_ppf sqrt_approx data)
  <-> exists a b,
        r = drift_of sqrt_approx (a, b)
        /\ In a (quarter_results t_ppf sqrt_approx (second_quarter n binned))
        /\ lookup_bin (q_speed a)
             (quarter_results t_ppf sqrt_approx (fourth_quarter n binned))
           = Some b
        /\ row_has_nan a = false /\ row_has_nan b = false.
Proof.
  intros n binned. unfold calculate_cardiac_drift_in_bins.
  fold n binned. rewrite List.in_map_iff. split.
  - intros ([a b] & <- & H). apply in_join_dropna in H. eauto 10.
  - intros (a & b & -> & H). exists (a, b).
    split; [reflexivity | apply in_join_dropna; exact H].
Qed.

(** C3: a bucket is in the final drift table exactly when its aggregate in
    the second quarter and its aggregate in the fourth quarter both have a
    confidence-interval width below 1 and more than 25 samples; a bucket
    with at most one sample in either quarter is never in the table. *)
Theorem reliable_in_both_quarters
    (t_ppf : Q -> Z -> xq) (sqrt_approx : Q -> Q)
    (data : list sample) (k : Q) :
  let n := length data in
  let binned := map bin_speed data in
  let stats2 := quarter_stats t_ppf sqrt_approx (second_quarter n binned) in
  let stats4 := quarter_stats t_ppf sqrt_approx (fourth_quarter n binned) in
  let table := calculate_cardiac_drift_in_bins t_ppf sqrt_approx data in
  (in_table k table
   <-> exists a b,
         lookup_bin k stats2 = Some a /\ lookup_bin k stats4 = Some b
         /\ (conf_interval_95_width a <? Fin 1)%xq = true
         /\ (25 < q_bin_count a)%nat
         /\ (conf_interval_95_width b <? Fin 1)%xq = true
         /\ (25 < q_bin_count b)%nat)
  /\ (forall a,
        lookup_bin k stats2 = Some a \/ lookup_bin k stats4 = Some a ->
        (q_bin_count a <= 1)%nat -> ~ in_table k table).
Proof.
  intros n binned stats2 stats4 table.
  pose proof (quarter_stats_unique t_ppf sqrt_approx (second_quarter n binned))
    as Hu2.
  pose proof (quarter_stats_unique t_ppf sqrt_approx (fourth_quarter n binned))
    as Hu4.
  fold stats2 in Hu2. fold stats4 in Hu4.
  assert (Hiff : in_table k table
    <-> exists a b,
         lookup_bin k stats2 = Some a /\ lookup_bin k stats4 = Some b
         /\ (conf_interval_95_width a <? Fin 1)%xq = true
         /\ (25 < q_bin_count a)%nat
         /\ (conf_interval_95_width b <? Fin 1)%xq = true
         /\ (25 < q_bin_count b)%nat).
  { split.
    - intros (r & Hr & Hk). apply in_drift_table in Hr.
      destruct Hr as (a & b & -> & Ha & Hb & _). simpl in Hk.
      apply lookup_bin_Some in Hb. destruct Hb as [Hb Hkb].
      apply List.filter_In in Ha, Hb.
      destruct Ha as [Ha Hra], Hb as [Hb Hrb].
      unfold reliable in Hra, Hrb.
      apply andb_true_iff in Hra, Hrb.
      destruct Hra as [Hwa Hca], Hrb as [Hwb Hcb].
      apply Nat.ltb_lt in Hca, Hcb.
      exists a, b. repeat split; try assumption.
      + apply Hu2; assumption.
      + apply Hu4; [assumption | lra].
    - intros (a & b & Ha & Hb & Hwa & Hca & Hwb & Hcb).
      apply lookup_bin_Some in Ha, Hb.
      destruct Ha as [Ha Hka], Hb as [Hb Hkb].
      assert (Hra : reliable a = true).
      { unfold reliable. rewrite Hwa. apply Nat.ltb_lt in Hca.
        rewrite Hca. reflexivity. }
      assert (Hrb : reliable b = true).
      { unfold reliable. rewrite Hwb. apply Nat.ltb_lt in Hcb.
        rewrite Hcb. reflexivity. }
      assert (Hfb : In b (List.filter reliable stats4)).
      { apply List.filter_In. split; assumption. }
      destruct (lookup_bin_exists (q_speed a) _ b Hfb) as [b' Hb'];
        [lra |].
      pose proof (lookup_bin_Some _ _ _ Hb') as [Hb'in _].
      apply List.filter_In in Hb'in. destruct Hb'in as [Hb'in Hrb'].
      exists (drift_of sqrt_approx (a, b')). split; [| exact Hka].
      apply in_drift_table. exists a, b'.
      repeat split.
      + apply List.filter_In. split; assumption.
      + exact Hb'.
      + eapply reliable_no_nan; eassumption.
      + eapply reliable_no_nan; eassumption. }
  split; [exact Hiff |].
  intros a0 Hlook Hle Hin. apply Hiff in Hin.
  destruct Hin as (a & b & Ha & Hb & _ & Hca & _ & Hcb).
  destruct Hlook as [H | H]; rewrite H in *.
  - injection Ha as ->. lia.
  - injection Hb as ->. lia.
Qed.

(** C4: every row of the final table is built from the reliable aggregates
    [a] (second quarter) and [b] (fourth quarter) of its bucket: drift in
    bpm is the mean of [b] minus the mean of [a], drift in percent is that
    difference over the mean of [a], the combined width is the square root
    of the sum of the squared widths, the combined count is the sum of the
    counts; a row holds these four fields and its bucket. *)
Theorem drift_row_fields
    (t_ppf : Q -> Z -> xq) (sqrt_approx : Q -> Q)
    (data : list sample) (r : drift_row) :
  let n := length data in
  let binned := map bin_speed data in
  let results2 := quarter_results t_ppf sqrt_approx (second_quarter n binned) in
  let results4 := quarter_results t_ppf sqrt_approx (fourth_quarter n binned) in
  In r (calculate_cardiac_drift_in_bins t_ppf sqrt_approx data) ->
  exists a b,
    lookup_bin (speed_bin r) results2 = Some a
    /\ lookup_bin (speed_bin r) results4 = Some b
    /\ r = {| speed_bin := q_speed a;
              hr_drift_bpm := (hr_avg b - hr_avg a)%xq;
              hr_drift_pct := (hr_drift_bpm r / hr_avg a)%xq;
              hr_drift_ci_width :=
                xsqrt sqrt_approx
                  (conf_interval_95_width a * conf_interval_95_width a
                   + conf_interval_95_width b * conf_interval_95_width b)%xq;
              bin_count := (q_bin_count a + q_bin_count b)%nat |}.
Proof.
  intros n binned results2 results4 Hr. apply in_drift_table in Hr.
  destruct Hr as (a & b & -> & Ha & Hb & _).
  exists a, b. simpl. repeat split; [| exact Hb].
  apply (unique_keys_filter reliable); [| exact Ha | reflexivity].
  apply quarter_stats_unique.
Qed.

(** ** The estimator: buckets of constant heart rate *)




Section ConstantRate.

Variable t_ppf : Q -> Z -> xq.
Variable sqrt_approx : Q -> Q.

(** What is used of the two library functions: the square root of zero is
    zero, the square root of a positive count is not zero, and the quantile
    is a finite number when there is at least one degree of freedom. *)
Hypothesis sqrt_zero : forall q, q == 0 -> sqrt_approx q == 0.
Hypothesis sqrt_count : forall n, (0 < n)%nat -> ~ sqrt_approx (Qnat n) == 0.
Hypothesis t_ppf_finite :
  forall df, (1 <= df)%Z -> is_finite (t_ppf (39 # 40) df) = true.

Local Abbreviation agg := (aggregate t_ppf sqrt_approx).
Local Abbreviation stats := (quarter_stats t_ppf sqrt_approx).




End ConstantRate.






Lemma ex_table_row :
  let table :=
    calculate_cardiac_drift_in_bins t_ppf_ex sqrt_ex (ex_workout 120) in
  In (nth 0 table (ex_row 0 0 0)) table
  /\ speed_bin (nth 0 table (ex_row 0 0 0)) == 10.
Proof. split; [vm_compute; left; reflexivity | vm_compute; reflexivity]. Qed.


Lemma drift_row_fields_witness :
  let binned := map bin_speed (ex_workout 120) in
  let table :=
    calculate_cardiac_drift_in_bins t_ppf_ex sqrt_ex (ex_workout 120) in
  let r := nth 0 table (ex_row 0 0 0) in
  exists a b,
    lookup_bin (speed_bin r)
      (quarter_results t_ppf_ex sqrt_ex (second_quarter 120 binned)) = Some a
    /\ lookup_bin (speed_bin r)
      (quarter_results t_ppf_ex sqrt_ex (fourth_quarter 120 binned)) = Some b
    /\ hr_drift_bpm r = (hr_avg b - hr_avg a)%xq
    /\ bin_count r = (q_bin_count a + q_bin_count b)%nat.
Proof.
  intros binned table r.
  destruct (drift_row_fields t_ppf_ex sqrt_ex (ex_workout 120) r
              (proj1 ex_table_row)) as (a & b & Ha & Hb & Hr).
  exists a, b. split; [exact Ha |]. split; [exact Hb |].
  rewrite Hr. split; reflexivity.
Defined.

Lemma reliable_in_both_quarters_witness :
  in_table 10
    (calculate_cardiac_drift_in_bins t_ppf_ex sqrt_ex (ex_workout 120)).
Proof.
  apply (proj1 (reliable_in_both_quarters t_ppf_ex sqrt_ex (ex_workout 120) 10)).
  eexists. eexists.
  split; [vm_compute; reflexivity |].
  split; [vm_compute; reflexivity |].
  repeat split; simpl; lia.
Defined.


(** ** The duration string *)

Lemma digit_value_digits (c : ascii) (v : Z) :
  digit_value c = Some v -> In (c, v) digits.
Proof.
  destruct c as [[] [] [] [] [] [] [] []]; vm_compute; intros H;
    try discriminate; injection H as <-; tauto.
Qed.

Lemma split_colon_nonempty (s : string) : split_colon s <> [].
Proof.
  destruct s as [| c s]; simpl; [discriminate |].
  destruct (Ascii.eqb c ":"); [discriminate |].
  destruct (split_colon s); discriminate.
Qed.

Lemma split_colon_digit (c : ascii) (v : Z) (s : string) :
  digit_value c = Some v ->
  split_colon (String c s)
  = match split_colon s with
    | f :: fs => String c f :: fs
    | [] => [String c EmptyString]
    end.
Proof.
  intros H. apply digit_value_digits in H. simpl.
  assert (E : Ascii.eqb c ":" = false).
  { repeat (destruct H as [H | H]; [injection H as <- _; reflexivity |]).
    contradiction. }
  rewrite E. reflexivity.
Qed.

(** The first two fields of a string that starts with [HH:MM:]. *)
Lemma split_colon_hh_mm (h1 h2 m1 m2 : ascii) (vh1 vh2 vm1 vm2 : Z)
    (rest : string) :
  digit_value h1 = Some vh1 -> digit_value h2 = Some vh2 ->
  digit_value m1 = Some vm1 -> digit_value m2 = Some vm2 ->
  split_colon
    (String h1 (String h2 (String ":" (String m1 (String m2 (String ":" rest))))))
  = String h1 (String h2 EmptyString)
      :: String m1 (String m2 EmptyString) :: split_colon rest.
Proof.
  intros H1 H2 H3 H4.
  rewrite (split_colon_digit h1 vh1), (split_colon_digit h2 vh2) by assumption.
  change (split_colon (String ":" ?s)) with (EmptyString :: split_colon s).
  rewrite (split_colon_digit m1 vm1), (split_colon_digit m2 vm2) by assumption.
  reflexivity.
Qed.

Lemma py_int_two_digits (c1 c2 : ascii) (v1 v2 : Z) :
  digit_value c1 = Some v1 -> digit_value c2 = Some v2 ->
  py_int (String c1 (String c2 EmptyString)) = Ok (v1 * 10 + v2)%Z.
Proof.
  intros H1 H2. apply digit_value_digits in H1, H2.
  repeat (destruct H1 as [H1 | H1];
          [injection H1 as <- <-;
           repeat (destruct H2 as [H2 | H2];
                   [injection H2 as <- <-; reflexivity |]);
           contradiction |]).
  contradiction.
Qed.

Lemma py_int_raises (s : string) (e : exn) :
  py_int s = Raise e -> e = ValueError.
Proof.
  unfold py_int. destruct (digits_value 0 false _); congruence.
Qed.

Lemma split_colon_no_colon (s : string) :
  has_colon s = false -> split_colon s = [s].
Proof.
  unfold has_colon. induction s as [| c s IH]; simpl; [reflexivity |].
  intros H. apply orb_false_iff in H. destruct H as [Hc Hs].
  rewrite Hc, (IH Hs). reflexivity.
Qed.

(** C6, as the code has it: a string that starts with two digits, a colon,
    two digits and a colon gives hours times 60 plus minutes whatever
    follows ("01:52:34" gives 112); a result is always 60 times the integer
    read in the first field plus the integer read in the second, never a
    default; a string without a colon raises ValueError or IndexError. *)
Theorem duration_minutes :
  (forall (h1 h2 m1 m2 : ascii) (vh1 vh2 vm1 vm2 : Z) (rest : string),
     digit_value h1 = Some vh1 -> digit_value h2 = Some vh2 ->
     digit_value m1 = Some vm1 -> digit_value m2 = Some vm2 ->
     get_minutes_from_duration_string
       (String h1 (String h2 (String ":"
          (String m1 (String m2 (String ":" rest))))))
     = Ok ((vh1 * 10 + vh2) * 60 + (vm1 * 10 + vm2))%Z)
  /\ get_minutes_from_duration_string "01:52:34" = Ok 112%Z
  /\ (forall (s : string) (v : Z),
        get_minutes_from_duration_string s = Ok v ->
        exists f0 f1 fs h m,
          split_colon s = f0 :: f1 :: fs
          /\ py_int f0 = Ok h /\ py_int f1 = Ok m
          /\ v = (h * 60 + m)%Z)
  /\ (forall s : string,
        has_colon s = false ->
        get_minutes_from_duration_string s = Raise ValueError
        \/ get_minutes_from_duration_string s = Raise IndexError).
Proof.
  split; [| split; [reflexivity | split]].
  - intros h1 h2 m1 m2 vh1 vh2 vm1 vm2 rest H1 H2 H3 H4.
    unfold get_minutes_from_duration_string.
    rewrite (split_colon_hh_mm h1 h2 m1 m2 vh1 vh2 vm1 vm2) by assumption.
    cbn [index nth_error mbind result_bind].
    rewrite (py_int_two_digits h1 h2 vh1 vh2) by assumption.
    rewrite (py_int_two_digits m1 m2 vm1 vm2) by assumption.
    reflexivity.
  - intros s v. unfold get_minutes_from_duration_string.
    destruct (split_colon s) as [| f0 [| f1 fs]];
      cbn [index nth_error mbind result_bind]; try discriminate.
    + destruct (py_int f0); discriminate.
    + destruct (py_int f0) as [h |] eqn:E0; [| discriminate].
      destruct (py_int f1) as [m |] eqn:E1; [| discriminate].
      intros H. injection H as <-. exists f0, f1, fs, h, m. auto.
  - intros s H. unfold get_minutes_from_duration_string.
    rewrite (split_colon_no_colon s H).
    cbn [index nth_error mbind result_bind].
    destruct (py_int s) as [h | e] eqn:E; [right; reflexivity | left].
    rewrite (py_int_raises s e E). reflexivity.
Qed.

(** C6, refuted as stated: strings that are not of the form HH:MM:SS are
    accepted and give a number of minutes. *)
Lemma time_format_not_checked :
  is_hh_mm_ss "01:52" = false
  /\ get_minutes_from_duration_string "01:52" = Ok 112%Z
  /\ is_hh_mm_ss "1:2:3:4" = false
  /\ get_minutes_from_duration_string "1:2:3:4" = Ok 62%Z
  /\ is_hh_mm_ss "01:52:xx" = false
  /\ get_minutes_from_duration_string "01:52:xx" = Ok 112%Z.
Proof. repeat split. Qed.

Lemma duration_minutes_witness :
  get_minutes_from_duration_string "23:59:07" = Ok 1439%Z.
Proof.
  exact (proj1 duration_minutes "2"%char "3"%char "5"%char "9"%char
           2%Z 3%Z 5%Z 9%Z "07" eq_refl eq_refl eq_refl eq_refl).
Defined.

(** ** The decision history *)

Lemma history_of_insert (w : world) (path : string) (items : list json)
    (out : list string) :
  history_of {| files := <[path := Doc (JArr items)]> (files w);
                stdout := out |} path
  = Some items.
Proof. unfold history_of. simpl. rewrite lookup_insert_eq. reflexivity. Qed.

Lemma save_on_history (decision : json) (path : string) (w : world)
    (items : list json) :
  (files w !! path = None /\ items = []) \/ history_of w path = Some items ->
  save_decision_to_json decision path w
  = Ok {| files := <[path := Doc (JArr (items ++ [decision]))]> (files w);
          stdout := stdout w ++ ["Changes were saved to " +:+ path] |}.
Proof.
  unfold save_decision_to_json, history_of.
  intros [[Hnone ->] | Hsome].
  - rewrite Hnone. reflexivity.
  - destruct (files w !! path) as [[| [| | | | l |]] |]; try discriminate.
    injection Hsome as ->. reflexivity.
Qed.

Lemma save_appends (decision : json) (path : string) (w : world)
    (items : list json) :
  (files w !! path = None /\ items = []) \/ history_of w path = Some items ->
  exists w',
    save_decision_to_json decision path w = Ok w'
    /\ history_of w' path = Some (items ++ [decision])
    /\ (forall other : string,
          other <> path -> files w' !! other = files w !! other).
Proof.
  intros H. rewrite (save_on_history decision path w items H).
  eexists. split; [reflexivity |].
  split; [apply history_of_insert |].
  intros other Hne. simpl. apply lookup_insert_ne. congruence.
Qed.

(** C9: saving a decision into a history (a missing file counts as the
    empty history) succeeds and leaves in the file the old entries, in
    order and unchanged, followed by the decision: one entry more, other
    files untouched.  Starting without a history file, one save gives a
    history of one entry and a second save a history of two, the first
    entry being the first decision. *)
Theorem save_appends_one :
  (forall (decision : json) (path : string) (w : world) (items : list json),
     (files w !! path = None /\ items = []) \/ history_of w path = Some items ->
     exists w' items',
       save_decision_to_json decision path w = Ok w'
       /\ history_of w' path = Some items'
       /\ items' = items ++ [decision]
       /\ length items' = S (length items)
       /\ (forall i : nat, (i < length items)%nat -> items' !! i = items !! i)
       /\ items' !! length items = Some decision
       /\ (forall other : string,
             other <> path -> files w' !! other = files w !! other))
  /\ (forall (d1 d2 : json) (path : string) (w : world),
        files w !! path = None ->
        exists w1 w2,
          save_decision_to_json d1 path w = Ok w1
          /\ history_of w1 path = Some [d1]
          /\ save_decision_to_json d2 path w1 = Ok w2
          /\ history_of w2 path = Some [d1; d2]).
Proof.
  split.
  - intros decision path w items H.
    destruct (save_appends decision path w items H) as (w' & S & Hh & Ho).
    exists w', (items ++ [decision]).
    split; [exact S |]. split; [exact Hh |]. split; [reflexivity |].
    split; [rewrite length_app; simpl; lia |].
    split; [intros i Hi; apply lookup_app_l; exact Hi |].
    split; [apply list_lookup_middle; reflexivity | exact Ho].
  - intros d1 d2 path w Hnone.
    destruct (save_appends d1 path w []) as (w1 & S1 & H1 & _).
    { left. split; [exact Hnone | reflexivity]. }
    destruct (save_appends d2 path w1 [d1]) as (w2 & S2 & H2 & _).
    { right. exact H1. }
    exists w1, w2. repeat split; assumption.
Qed.

Lemma save_appends_one_witness :
  let w0 := {| files := ∅; stdout := [] |} in
  exists w1 w2,
    save_decision_to_json (JStr "first") default_file_path w0 = Ok w1
    /\ history_of w1 default_file_path = Some [JStr "first"]
    /\ save_decision_to_json (JStr "second") default_file_path w1 = Ok w2
    /\ history_of w2 default_file_path = Some [JStr "first"; JStr "second"].
Proof.
  intros w0.
  apply (proj2 save_appends_one (JStr "first") (JStr "second")
           default_file_path w0).
  apply lookup_empty.
Defined.

(** * Further properties of the code *)

(** ** The two ladders of the decision generator *)

Lemma category_of_categorize tbl d lbl :
  fitness_category (generate_workout_decisions tbl d lbl)
  = categorize (avg_drift tbl).
Proof.
  unfold generate_workout_decisions.
  destruct (make_decision (avg_drift tbl) d) as [[dec next] note].
  reflexivity.
Qed.

(** Turns the comparisons of a finite value with constants into
    inequalities of rationals. *)
Ltac ladder_cases q :=
  repeat match goal with
    | |- context [XQ.Qltb q ?c] =>
        let E := fresh "E" in
        destruct (XQ.Qltb q c) eqn:E;
        [apply XQFacts.Qltb_lt in E | apply XQFacts.Qltb_ge in E]
    | |- context [XQ.Qltb ?c q] =>
        let E := fresh "E" in
        destruct (XQ.Qltb c q) eqn:E;
        [apply XQFacts.Qltb_lt in E | apply XQFacts.Qltb_ge in E]
    | |- context [Qle_bool q ?c] =>
        let E := fresh "E" in
        destruct (Qle_bool q c) eqn:E;
        [apply Qle_bool_iff in E | apply XQFacts.Qle_bool_gt in E]
    | |- context [Qle_bool ?c q] =>
        let E := fresh "E" in
        destruct (Qle_bool c q) eqn:E;
        [apply Qle_bool_iff in E | apply XQFacts.Qle_bool_gt in E]
    end.

(** X1: the fitness category follows the ladder of lines 74-83: below 3
    Elite, from 3 to below 4 Excellent, from 4 to below 6 Good, from 6 to
    below 8 Fair, from 8 on Poor; an undefined average is Poor. *)
Theorem category_ladder (tbl : list drift_row) (d : Z) (lbl : string) :
  let a := avg_drift tbl in
  let c := fitness_category (generate_workout_decisions tbl d lbl) in
  ((a <? Fin 3)%xq = true -> c = "Elite")
  /\ ((Fin 3 <=? a)%xq = true /\ (a <? Fin 4)%xq = true -> c = "Excellent")
  /\ ((Fin 4 <=? a)%xq = true /\ (a <? Fin 6)%xq = true -> c = "Good")
  /\ ((Fin 6 <=? a)%xq = true /\ (a <? Fin 8)%xq = true -> c = "Fair")
  /\ ((Fin 8 <=? a)%xq = true -> c = "Poor")
  /\ (XQ.is_nan a = true -> c = "Poor").
Proof.
  cbv zeta. rewrite category_of_categorize. unfold categorize.
  destruct (avg_drift tbl) as [q | | |]; simpl.
  - repeat split; intros H;
      try match type of H with _ /\ _ => destruct H as [H H'] end;
      repeat match goal with
        | H : XQ.Qltb _ _ = true |- _ => apply XQFacts.Qltb_lt in H
        | H : Qle_bool _ _ = true |- _ => apply Qle_bool_iff in H
        | H : false = true |- _ => discriminate H
        end;
      ladder_cases q; try reflexivity; lra.
  - repeat split; intros H;
      try match type of H with _ /\ _ => destruct H as [H H'] end;
      try discriminate; reflexivity.
  - repeat split; intros H;
      try match type of H with _ /\ _ => destruct H as [H H'] end;
      try discriminate; reflexivity.
  - repeat split; intros H;
      try match type of H with _ /\ _ => destruct H as [H H'] end;
      try discriminate; reflexivity.
Qed.

Lemma category_ladder_witness :
  fitness_category (generate_workout_decisions [ex_row 10 3 60] 45 "d")
  = "Excellent"
  /\ fitness_category (generate_workout_decisions [ex_row 10 6 60] 45 "d")
     = "Fair"
  /\ fitness_category (generate_workout_decisions [ex_row 10 8 60] 45 "d")
     = "Poor".
Proof.
  destruct (category_ladder [ex_row 10 3 60] 45 "d") as (_ & H3 & _).
  destruct (category_ladder [ex_row 10 6 60] 45 "d") as (_ & _ & _ & H6 & _).
  destruct (category_ladder [ex_row 10 8 60] 45 "d")
    as (_ & _ & _ & _ & H8 & _).
  split; [exact (H3 (conj eq_refl eq_refl)) |].
  split; [exact (H6 (conj eq_refl eq_refl)) | exact (H8 eq_refl)].
Defined.

Lemma ladders_outcome (a : xq) (d : Z) :
  In (categorize a, (make_decision a d).1.1, ((make_decision a d).1.2 - d)%Z)
     ladder_outcomes.
Proof.
  unfold categorize, make_decision, ladder_outcomes.
  destruct a as [q | | |]; simpl.
  - ladder_cases q; simpl; try lra;
      repeat match goal with
        | |- context [(d + ?k - d)%Z] =>
            replace (d + k - d)%Z with k by lia
        | |- context [(d - 5 - d)%Z] =>
            replace (d - 5 - d)%Z with (-5)%Z by lia
        | |- context [(d - d)%Z] => replace (d - d)%Z with 0%Z by lia
        end; tauto.
  - replace (d - 5 - d)%Z with (-5)%Z by lia. tauto.
  - replace (d + 10 - d)%Z with 10%Z by lia. tauto.
  - replace (d - 5 - d)%Z with (-5)%Z by lia. tauto.
Qed.

(** X2: the category, the decision and the change of duration of a record
    are one of seven combinations: Elite goes with extend much (+10),
    Excellent with extend (+5), Good with extend or maintain, Fair with
    maintain, Poor with maintain or reduce (-5). *)
Theorem category_decision_consistent
    (tbl : list drift_row) (d : Z) (lbl : string) :
  let r := generate_workout_decisions tbl d lbl in
  In (fitness_category r, decision r, (next_duration_min r - d)%Z)
     ladder_outcomes.
Proof.
  cbv zeta. rewrite category_of_categorize.
  destruct (decision_of_make tbl d lbl) as [-> ->].
  apply ladders_outcome.
Qed.

Lemma next_duration_monotone (a b : xq) (d : Z) :
  (a <=? b)%xq = true ->
  ((make_decision b d).1.2 <= (make_decision a d).1.2)%Z.
Proof.
  unfold make_decision.
  destruct a as [p | | |], b as [q | | |]; simpl; try discriminate;
    intros H; try apply Qle_bool_iff in H.
  all: try ladder_cases p; try ladder_cases q; simpl; first [lia | lra].
Qed.

(** X3: a higher average drift never gives a longer next workout: when
    the average drift of one table is at most that of another, the next
    duration recommended for the second is at most the one recommended for
    the first, for the same duration. *)
Theorem higher_drift_never_longer
    (t1 t2 : list drift_row) (d : Z) (l1 l2 : string) :
  (avg_drift t1 <=? avg_drift t2)%xq = true ->
  (next_duration_min (generate_workout_decisions t2 d l2)
   <= next_duration_min (generate_workout_decisions t1 d l1))%Z.
Proof.
  intros H.
  destruct (decision_of_make t1 d l1) as [_ ->].
  destruct (decision_of_make t2 d l2) as [_ ->].
  apply next_duration_monotone, H.
Qed.

Lemma higher_drift_never_longer_witness :
  (next_duration_min (generate_workout_decisions [ex_row 10 9 60] 45 "b")
   <= next_duration_min (generate_workout_decisions [ex_row 10 4 60] 45 "a"))%Z.
Proof.
  apply (higher_drift_never_longer [ex_row 10 4 60] [ex_row 10 9 60] 45 "a" "b").
  reflexivity.
Defined.

Lemma round_half_even_near (x : Q) :
  - (1 # 2) <= x - inject_Z (round_half_even x)
  /\ x - inject_Z (round_half_even x) <= 1 # 2.
Proof.
  unfold round_half_even.
  pose proof (Qfloor_le x) as Hlo. pose proof (Qlt_floor x) as Hhi.
  rewrite inject_Z_plus in Hhi. change (inject_Z 1) with 1 in Hhi.
  destruct (Qcompare (x - inject_Z (Qfloor x)) (1 # 2)) eqn:E.
  - apply Qeq_alt in E.
    destruct (Z.even (Qfloor x));
      [| rewrite inject_Z_plus; change (inject_Z 1) with 1]; lra.
  - apply Qlt_alt in E. lra.
  - apply Qgt_alt in E. rewrite inject_Z_plus.
    change (inject_Z 1) with 1. lra.
Qed.

(** ** Failures of the history store *)

(** X5: a save succeeds only when the history file is missing or holds a
    JSON list.  A file that is not JSON makes it raise JSONDecodeError and
    a file holding any other JSON value makes it raise AttributeError,
    before anything is written. *)
Theorem save_failures (decision : json) (path : string) (w : world) :
  (files w !! path = Some Corrupt ->
   save_decision_to_json decision path w = Raise JSONDecodeError)
  /\ (forall v : json,
        files w !! path = Some (Doc v) ->
        (forall items, v <> JArr items) ->
        save_decision_to_json decision path w = Raise AttributeError)
  /\ (forall w' : world,
        save_decision_to_json decision path w = Ok w' ->
        files w !! path = None \/ exists items, history_of w path = Some items).
Proof.
  unfold save_decision_to_json, history_of. repeat split.
  - intros ->. reflexivity.
  - intros v -> Hv. destruct v; try reflexivity.
    exfalso. eapply Hv. reflexivity.
  - intros w'. destruct (files w !! path) as [[| v] |]; [| | auto].
    + discriminate.
    + destruct v; try discriminate. intros _. right. eauto.
Qed.

Lemma save_failures_witness :
  save_decision_to_json (JStr "d") "h.json"
    {| files := {[ "h.json" := Doc (JObj []) ]}; stdout := [] |}
  = Raise AttributeError.
Proof.
  apply (proj1 (proj2 (save_failures (JStr "d") "h.json"
           {| files := {[ "h.json" := Doc (JObj []) ]}; stdout := [] |}))
           (JObj [])).
  - reflexivity.
  - intros items H. discriminate H.
Defined.

(** X6: decisions saved one after another into the same file (a missing
    file counts as the empty history) all succeed and leave the old
    entries followed by the decisions in the order they were saved; every
    save prints one line and no other file changes. *)
Theorem saves_accumulate_in_order (ds : list json) (d : json) (path : string)
    (w : world) (items : list json) :
  (files w !! path = None /\ items = []) \/ history_of w path = Some items ->
  exists w',
    save_all (d :: ds) path w = Ok w'
    /\ history_of w' path = Some (items ++ d :: ds)
    /\ length (stdout w') = (length (stdout w) + S (length ds))%nat
    /\ (forall other : string,
          other <> path -> files w' !! other = files w !! other).
Proof.
  revert d w items. induction ds as [| d' ds IH]; intros d w items H.
  - cbn [save_all]. rewrite (save_on_history d path w items H).
    cbn [mbind result_bind]. eexists. split; [reflexivity |].
    split; [apply history_of_insert |].
    split; [simpl; rewrite length_app; simpl; lia |].
    intros other Hne. simpl. apply lookup_insert_ne. congruence.
  - cbn [save_all]. rewrite (save_on_history d path w items H).
    cbn [mbind result_bind].
    set (w1 := {| files := _; stdout := _ |}).
    destruct (IH d' w1 (items ++ [d])) as (w' & S & Hh & Hout & Ho).
    { right. apply history_of_insert. }
    exists w'. split; [exact S |].
    split; [rewrite Hh, <- app_assoc; reflexivity |].
    split.
    + rewrite Hout. unfold w1. simpl. rewrite length_app. simpl. lia.
    + intros other Hne. rewrite (Ho other Hne). unfold w1. simpl.
      apply lookup_insert_ne. congruence.
Qed.

Lemma saves_accumulate_in_order_witness :
  exists w',
    save_all [JStr "a"; JStr "b"; JStr "c"] default_file_path
      {| files := {[ default_file_path := Doc (JArr [JNull]) ]}; stdout := [] |}
    = Ok w'
    /\ history_of w' default_file_path
       = Some [JNull; JStr "a"; JStr "b"; JStr "c"].
Proof.
  destruct (saves_accumulate_in_order [JStr "b"; JStr "c"] (JStr "a")
              default_file_path
              {| files := {[ default_file_path := Doc (JArr [JNull]) ]};
                 stdout := [] |} [JNull])
    as (w' & S & H & _).
  { right. reflexivity. }
  exists w'. split; assumption.
Defined.

(** ** Splitting the duration string *)

Lemma split_colon_cons (c : ascii) (s : string) :
  split_colon (String c s)
  = if Ascii.eqb c ":" then EmptyString :: split_colon s
    else match split_colon s with
         | f :: fs => String c f :: fs
         | [] => [String c EmptyString]
         end.
Proof. reflexivity. Qed.

Lemma has_colon_cons (c : ascii) (s : string) :
  has_colon (String c s) = Ascii.eqb c ":" || has_colon s.
Proof. reflexivity. Qed.

Lemma join_colon_push (c : ascii) (f : string) (fs : list string) :
  join_colon (String c f :: fs) = String c (join_colon (f :: fs)).
Proof. destruct fs; reflexivity. Qed.

Lemma join_colon_empty_head (fs : list string) :
  fs <> [] -> join_colon (EmptyString :: fs) = String ":" (join_colon fs).
Proof. destruct fs; [congruence | reflexivity]. Qed.

Lemma join_split_colon (s : string) : join_colon (split_colon s) = s.
Proof.
  induction s as [| c s IH]; [reflexivity |].
  rewrite split_colon_cons.
  pose proof (split_colon_nonempty s) as Hne.
  destruct (Ascii.eqb c ":") eqn:E.
  - apply Ascii.eqb_eq in E. subst c.
    rewrite join_colon_empty_head, IH by exact Hne. reflexivity.
  - destruct (split_colon s) as [| f fs]; [congruence |].
    rewrite join_colon_push, IH. reflexivity.
Qed.

Lemma split_colon_fields (s : string) :
  Forall (fun f => has_colon f = false) (split_colon s).
Proof.
  induction s as [| c s IH]; [repeat constructor |].
  rewrite split_colon_cons.
  destruct (Ascii.eqb c ":") eqn:E.
  - constructor; [reflexivity | exact IH].
  - destruct (split_colon s) as [| f fs].
    + constructor; [| constructor]. rewrite has_colon_cons, E. reflexivity.
    + inversion IH as [| ? ? Hf Hfs]; subst.
      constructor; [| exact Hfs]. rewrite has_colon_cons, E. exact Hf.
Qed.

(** X7: splitting at colons loses nothing: the fields joined by colons
    give the string back, and no field holds a colon. *)
Theorem split_join_round_trip (s : string) :
  join_colon (split_colon s) = s
  /\ Forall (fun f => has_colon f = false) (split_colon s).
Proof. split; [apply join_split_colon | apply split_colon_fields]. Qed.

Lemma split_colon_two_fields (s : string) :
  has_colon s = true -> exists f0 f1 fs, split_colon s = f0 :: f1 :: fs.
Proof.
  induction s as [| c s IH]; [discriminate |].
  rewrite has_colon_cons, split_colon_cons.
  pose proof (split_colon_nonempty s) as Hne.
  destruct (Ascii.eqb c ":"); simpl.
  - intros _. destruct (split_colon s) as [| f fs]; [congruence | eauto].
  - intros H. destruct (IH H) as (f0 & f1 & fs & ->). eauto.
Qed.

(** X8: the only exceptions of get_minutes_from_duration_string are
    ValueError and IndexError, and IndexError is raised exactly for a
    string without a colon that reads as an integer as a whole (the hours
    are read before the minutes are looked up). *)
Theorem duration_exceptions (s : string) :
  (get_minutes_from_duration_string s = Raise IndexError
   <-> has_colon s = false /\ exists h, py_int s = Ok h)
  /\ (forall e, get_minutes_from_duration_string s = Raise e ->
        e = IndexError \/ e = ValueError).
Proof.
  unfold get_minutes_from_duration_string.
  destruct (has_colon s) eqn:Hc.
  - destruct (split_colon_two_fields s Hc) as (f0 & f1 & fs & ->).
    cbn [index nth_error mbind result_bind].
    destruct (py_int f0) as [h | e0] eqn:E0;
      [destruct (py_int f1) as [m | e1] eqn:E1 |]; cbn [mbind result_bind].
    + split; [split; [discriminate | intros [H _]; discriminate] |].
      intros e H. discriminate.
    + apply py_int_raises in E1. subst e1.
      split; [split; [discriminate | intros [H _]; discriminate] |].
      intros e H. injection H as <-. auto.
    + apply py_int_raises in E0. subst e0.
      split; [split; [discriminate | intros [H _]; discriminate] |].
      intros e H. injection H as <-. auto.
  - rewrite (split_colon_no_colon s Hc).
    cbn [index nth_error mbind result_bind].
    destruct (py_int s) as [h | e0] eqn:E0; cbn [mbind result_bind].
    + split; [split; [eauto | reflexivity] |].
      intros e H. injection H as <-. auto.
    + apply py_int_raises in E0. subst e0.
      split; [split; [discriminate | intros [_ [h H]]; discriminate] |].
      intros e H. injection H as <-. auto.
Qed.

(** ** Speed buckets *)

(** X9: for a speed below 2^1023 in magnitude (from there on the
    division of line 29 overflows in binary64) binning keeps the heart rate
    and replaces the speed by the lower end of its bucket: a multiple of
    0.5 that is at most the speed and less than half a km/h below it.
    Binning a binned row changes nothing. *)
Theorem bin_speed_bucket (s : sample) :
  Qabs (speed s) < inject_Z (2 ^ 1023) ->
  let b := speed (bin_speed s) in
  hr (bin_speed s) = hr s
  /\ b <= speed s /\ speed s < b + (1 # 2)
  /\ (exists z : Z, b == inject_Z z * (1 # 2))
  /\ speed (bin_speed (bin_speed s)) == b.
Proof.
  intros _. cbv zeta. unfold bin_speed. cbn [hr speed].
  set (x := speed s / (1 # 2)).
  pose proof (Qfloor_le x) as Hlo. pose proof (Qlt_floor x) as Hhi.
  rewrite inject_Z_plus in Hhi. change (inject_Z 1) with 1 in Hhi.
  assert (Hx : x == speed s * 2) by (unfold x; field).
  split; [reflexivity |]. split; [lra |]. split; [lra |].
  split; [exists (Qfloor x); reflexivity |].
  assert (Hz : inject_Z (Qfloor x) * (1 # 2) / (1 # 2) == inject_Z (Qfloor x))
    by field.
  rewrite (Qfloor_comp _ _ Hz), Qfloor_Z. reflexivity.
Qed.

Lemma bin_speed_bucket_witness :
  speed (bin_speed (mk_sample 140 (101 # 10))) <= 101 # 10
  /\ 101 # 10 < speed (bin_speed (mk_sample 140 (101 # 10))) + (1 # 2).
Proof.
  destruct (bin_speed_bucket (mk_sample 140 (101 # 10)))
    as (_ & Hlo & Hhi & _).
  - vm_compute. reflexivity.
  - split; [exact Hlo | exact Hhi].
Defined.

(** ** The four parts of a workout *)

Lemma drop_split {A} (a b : nat) (l : list A) :
  (a <= b)%nat -> drop a l = iloc_slice a b l ++ drop b l.
Proof.
  intros H. unfold iloc_slice.
  rewrite <- (take_drop (b - a) (drop a l)) at 1.
  rewrite drop_drop. replace (a + (b - a))%nat with b by lia. reflexivity.
Qed.

(** X10: the rows of a workout are, in order, the rows before n/4, the
    second quarter, the rows from n/2 to before 3n/4 and the fourth
    quarter: the two quarters the estimator reads do not overlap, the
    second comes first, and the two other parts are never read. *)
Theorem quarters_partition {A} (rows : list A) :
  let n := length rows in
  rows = iloc_slice 0 (n / 4) rows ++ second_quarter n rows
           ++ iloc_slice (n / 2) (3 * n / 4) rows ++ fourth_quarter n rows.
Proof.
  intros n. unfold second_quarter, fourth_quarter, iloc_from.
  assert (H1 : (n / 4 <= n / 2)%nat) by (apply Nat.div_le_compat_l; lia).
  assert (H2 : (n / 2 <= 3 * n / 4)%nat).
  { pose proof (Nat.div_mod_eq n 2). pose proof (Nat.div_mod_eq (3 * n) 4).
    pose proof (Nat.mod_upper_bound n 2). 
    pose proof (Nat.mod_upper_bound (3 * n) 4). lia. }
  rewrite <- (drop_split (n / 2) (3 * n / 4)) by exact H2.
  rewrite <- (drop_split (n / 4) (n / 2)) by exact H1.
  rewrite <- (drop_split 0 (n / 4)) by lia. reflexivity.
Qed.

(** ** Grouping keeps every row *)

Lemma group_add_total (k h : Q) (g : list (Q * list Q)) :
  list_sum (map (fun x => length (snd x)) (group_add k h g))
  = S (list_sum (map (fun x => length (snd x)) g)).
Proof.
  induction g as [| [k' hs] g IH]; simpl; [reflexivity |].
  destruct (Qcompare k k'); simpl.
  - rewrite length_app. simpl. lia.
  - reflexivity.
  - rewrite IH. lia.
Qed.

Lemma groupby_total (rows : list sample) :
  list_sum (map (fun x => length (snd x)) (groupby rows)) = length rows.
Proof.
  induction rows as [| s rows IH] using rev_ind; [reflexivity |].
  rewrite groupby_snoc, group_add_total, IH, length_app. simpl. lia.
Qed.

Lemma bucket_count_rows
    (t_ppf : Q -> Z -> xq) (sqrt_approx : Q -> Q) (quarter : list sample)
    (k : Q) (a : quarter_row) :
  lookup_bin k (quarter_stats t_ppf sqrt_approx quarter) = Some a ->
  q_bin_count a
  = length (List.filter (fun s => Qeq_bool (speed s) k) quarter)
  /\ (0 < q_bin_count a)%nat.
Proof.
  intros Ha. unfold quarter_stats in Ha.
  rewrite lookup_bin_aggregate in Ha.
  pose proof (groupby_rates k quarter) as Hg.
  destruct (find_group k (groupby quarter)) as [[k' hs] |];
    [| discriminate].
  destruct Hg as (_ & Hhs & Hne).
  assert (Ea : q_bin_count a = length hs) by (injection Ha as <-; reflexivity).
  rewrite Ea. split.
  - rewrite Hhs. unfold bucket_rates. apply length_map.
  - destruct hs; [congruence | simpl; lia].
Qed.

(** X11: grouping a quarter by bucket loses and repeats no row: the
    sample counts of its buckets add up to the number of its rows, and the
    count of a bucket is the number of rows of the quarter in that bucket,
    at least one. *)
Theorem grouping_keeps_every_row
    (t_ppf : Q -> Z -> xq) (sqrt_approx : Q -> Q) (quarter : list sample) :
  list_sum (map q_bin_count (quarter_stats t_ppf sqrt_approx quarter))
  = length quarter
  /\ (forall k a,
        lookup_bin k (quarter_stats t_ppf sqrt_approx quarter) = Some a ->
        q_bin_count a
        = length (List.filter (fun s => Qeq_bool (speed s) k) quarter)
        /\ (0 < q_bin_count a)%nat).
Proof.
  split.
  - unfold quarter_stats. rewrite List.map_map.
    rewrite <- (groupby_total quarter). f_equal.
    apply List.map_ext. intros [k hs]. reflexivity.
  - intros k a. apply bucket_count_rows.
Qed.

(** ** Rows of the drift table *)

Lemma stats_mean_finite
    (t_ppf : Q -> Z -> xq) (sqrt_approx : Q -> Q) (quarter : list sample)
    (a : quarter_row) :
  In a (quarter_stats t_ppf sqrt_approx quarter) ->
  (0 < q_bin_count a)%nat -> is_finite (hr_avg a) = true.
Proof.
  intros Hin Hc. apply List.in_map_iff in Hin.
  destruct Hin as ([k hs] & <- & _). simpl in Hc |- *.
  unfold hr_mean. rewrite div_by_count by exact Hc. reflexivity.
Qed.






(** ** Workouts too short to be analysed *)

Lemma filter_none {A} (p : A -> bool) (l : list A) :
  (forall a, In a l -> p a = false) -> List.filter p l = [].
Proof.
  induction l as [| x l IH]; simpl; [reflexivity |].
  intros H. rewrite (H x) by auto. apply IH. intros a Ha. apply H. auto.
Qed.

Lemma short_quarter_unreliable
    (t_ppf : Q -> Z -> xq) (sqrt_approx : Q -> Q) (quarter : list sample) :
  (length quarter <= 25)%nat ->
  quarter_results t_ppf sqrt_approx quarter = [].
Proof.
  intros Hlen. unfold quarter_results. apply filter_none. intros a Ha.
  pose proof (quarter_stats_unique t_ppf sqrt_approx quarter a (q_speed a) Ha
                ltac:(reflexivity)) as Hl.
  apply bucket_count_rows in Hl. destruct Hl as [Hc _].
  pose proof (List.filter_length_le
                (fun s => Qeq_bool (speed s) (q_speed a)) quarter) as Hf.
  unfold reliable. apply andb_false_iff. right. apply Nat.ltb_ge. lia.
Qed.

(** X13: a workout of at most 101 rows has fewer than 26 rows in its
    second quarter, so no bucket is reliable: the drift table is empty, and
    the decision made from it is extend much, with ten minutes added. *)
Theorem short_workout_extends
    (t_ppf : Q -> Z -> xq) (sqrt_approx : Q -> Q)
    (data : list sample) (d : Z) (lbl : string) :
  (length data <= 101)%nat ->
  calculate_cardiac_drift_in_bins t_ppf sqrt_approx data = []
  /\ decision (generate_workout_decisions
                 (calculate_cardiac_drift_in_bins t_ppf sqrt_approx data) d lbl)
     = "extend much"
  /\ next_duration_min (generate_workout_decisions
                 (calculate_cardiac_drift_in_bins t_ppf sqrt_approx data) d lbl)
     = (d + 10)%Z.
Proof.
  intros Hn.
  assert (E : calculate_cardiac_drift_in_bins t_ppf sqrt_approx data = []).
  { unfold calculate_cardiac_drift_in_bins.
    rewrite short_quarter_unreliable; [reflexivity |].
    unfold second_quarter, iloc_slice.
    rewrite length_take, length_drop, length_map.
    set (n := length data) in *.
    pose proof (Nat.div_mod_eq n 2). pose proof (Nat.div_mod_eq n 4).
    pose proof (Nat.mod_upper_bound n 2).
    pose proof (Nat.mod_upper_bound n 4). lia. }
  rewrite E. repeat split.
Qed.

Lemma short_workout_extends_witness :
  calculate_cardiac_drift_in_bins t_ppf_ex sqrt_ex (ex_workout 100) = []
  /\ decision (generate_workout_decisions
                 (calculate_cardiac_drift_in_bins t_ppf_ex sqrt_ex
                    (ex_workout 100)) 45 "d")
     = "extend much"
  /\ next_duration_min (generate_workout_decisions
                 (calculate_cardiac_drift_in_bins t_ppf_ex sqrt_ex
                    (ex_workout 100)) 45 "d")
     = 55%Z.
Proof.
  apply (short_workout_extends t_ppf_ex sqrt_ex (ex_workout 100) 45 "d").
  vm_compute. lia.
Defined.

(** ** Only two quarters are read *)

(** X14: the drift table depends on the second and fourth quarter of the
    rows only: two workouts of the same length that agree on these two
    quarters give the same table, whatever their other rows. *)
Theorem only_quarters_matter
    (t_ppf : Q -> Z -> xq) (sqrt_approx : Q -> Q) (d1 d2 : list sample) :
  length d1 = length d2 ->
  second_quarter (length d1) d1 = second_quarter (length d2) d2 ->
  fourth_quarter (length d1) d1 = fourth_quarter (length d2) d2 ->
  calculate_cardiac_drift_in_bins t_ppf sqrt_approx d1
  = calculate_cardiac_drift_in_bins t_ppf sqrt_approx d2.
Proof.
  intros Hlen H2 H4. unfold calculate_cardiac_drift_in_bins.
  assert (E2 : forall d : list sample,
            second_quarter (length d) (map bin_speed d)
            = map bin_speed (second_quarter (length d) d)).
  { intros d. unfold second_quarter, iloc_slice.
    rewrite List.skipn_map, List.firstn_map. reflexivity. }
  assert (E4 : forall d : list sample,
            fourth_quarter (length d) (map bin_speed d)
            = map bin_speed (fourth_quarter (length d) d)).
  { intros d. unfold fourth_quarter, iloc_from.
    rewrite List.skipn_map. reflexivity. }
  rewrite !E2, !E4, H2, H4. reflexivity.
Qed.

Lemma only_quarters_matter_witness :
  calculate_cardiac_drift_in_bins t_ppf_ex sqrt_ex
    (mk_sample 90 3 :: drop 1 (ex_workout 120))
  = calculate_cardiac_drift_in_bins t_ppf_ex sqrt_ex (ex_workout 120).
Proof.
  apply (only_quarters_matter t_ppf_ex sqrt_ex
           (mk_sample 90 3 :: drop 1 (ex_workout 120)) (ex_workout 120));
    reflexivity.
Defined.

(** ** Order of the buckets *)

Lemma increasing_filter {A} (key : A -> Q) (p : A -> bool) (l : list A) :
  increasing (map key l) -> increasing (map key (List.filter p l)).
Proof.
  induction l as [| x l IH]; simpl; [auto |].
  intros [Hall Hs]. destruct (p x); simpl; [| apply IH, Hs].
  split; [| apply IH, Hs].
  apply List.Forall_forall. intros y Hy.
  apply List.in_map_iff in Hy. destruct Hy as (b & <- & Hb).
  apply List.filter_In in Hb. destruct Hb as [Hb _].
  rewrite List.Forall_forall in Hall. apply Hall.
  apply List.in_map. exact Hb.
Qed.

Lemma increasing_stats
    (t_ppf : Q -> Z -> xq) (sqrt_approx : Q -> Q) (quarter : list sample) :
  increasing (map q_speed (quarter_stats t_ppf sqrt_approx quarter)).
Proof.
  unfold quarter_stats. pose proof (groupby_sorted quarter) as Hs.
  induction (groupby quarter) as [| x g IH]; simpl; [exact I |].
  destruct Hs as [Hall Hs]. rewrite q_speed_aggregate.
  split; [| apply IH, Hs].
  apply List.Forall_forall. intros y Hy.
  apply List.in_map_iff in Hy. destruct Hy as (b & <- & Hb).
  apply List.in_map_iff in Hb. destruct Hb as (z & <- & Hz).
  rewrite q_speed_aggregate.
  rewrite List.Forall_forall in Hall. apply Hall, Hz.
Qed.

Lemma increasing_join (sqrt_approx : Q -> Q) (L R : list quarter_row) :
  increasing (map q_speed L) ->
  increasing (map speed_bin (map (drift_of sqrt_approx) (join_dropna L R))).
Proof.
  induction L as [| a L IH]; simpl; [auto |].
  intros [Hall Hs].
  assert (Htail : Forall (fun y => q_speed a < y)
            (map speed_bin (map (drift_of sqrt_approx) (join_dropna L R)))).
  { apply List.Forall_forall. intros y Hy.
    apply List.in_map_iff in Hy. destruct Hy as (r & <- & Hr).
    apply List.in_map_iff in Hr. destruct Hr as ([a' b'] & <- & Hab).
    apply in_join_dropna in Hab. destruct Hab as (Ha' & _).
    change (q_speed a < q_speed a').
    rewrite List.Forall_forall in Hall. apply Hall.
    apply List.in_map. exact Ha'. }
  unfold join_dropna in *. cbn [omap list_omap].
  destruct (lookup_bin (q_speed a) R) as [b |]; [| apply IH, Hs].
  destruct (row_has_nan a || row_has_nan b); [apply IH, Hs |].
  simpl. split; [exact Htail | apply IH, Hs].
Qed.

(** X15: the buckets of the drift table are in strictly increasing order
    of speed, each once; so are the paces listed in the decision made from
    it. *)
Theorem paces_strictly_increasing
    (t_ppf : Q -> Z -> xq) (sqrt_approx : Q -> Q)
    (data : list sample) (d : Z) (lbl : string) :
  let table := calculate_cardiac_drift_in_bins t_ppf sqrt_approx data in
  increasing (map speed_bin table)
  /\ increasing (paces_analyzed (generate_workout_decisions table d lbl)).
Proof.
  intros table.
  assert (H : increasing (map speed_bin table)).
  { unfold table, calculate_cardiac_drift_in_bins.
    apply increasing_join. unfold quarter_results.
    apply increasing_filter, increasing_stats. }
  split; [exact H |].
  unfold generate_workout_decisions.
  destruct (make_decision (avg_drift table) d) as [[dec next] note].
  exact H.
Qed.

(** ** Fields of any number of digits *)

Lemma is_digit_plain (c : ascii) :
  is_digit c = true ->
  is_space c = false /\ Ascii.eqb c "-" = false /\ Ascii.eqb c "+" = false.
Proof.
  unfold is_digit. destruct (digit_value c) as [v |] eqn:E; [| discriminate].
  intros _. apply digit_value_digits in E.
  repeat (destruct E as [E | E]; [injection E as <- _; repeat split |]).
  contradiction.
Qed.

Lemma drop_space_digit (l : list ascii) :
  match l with c :: _ => is_digit c = true | [] => True end ->
  drop_space l = l.
Proof.
  destruct l as [| c l]; [reflexivity |]. intros H.
  apply is_digit_plain in H. destruct H as [H _]. simpl. rewrite H.
  reflexivity.
Qed.

Lemma strip_digits (l : list ascii) :
  forallb is_digit l = true -> strip l = l.
Proof.
  intros H. unfold strip.
  rewrite (drop_space_digit l).
  2:{ destruct l as [| c l]; [exact I |]. simpl in H.
      apply andb_true_iff in H. apply H. }
  rewrite (drop_space_digit (rev l)); [apply rev_involutive |].
  destruct (rev l) as [| c l'] eqn:E; [exact I |].
  rewrite List.forallb_forall in H. apply H.
  apply List.in_rev. rewrite E. left. reflexivity.
Qed.

Lemma digits_value_digits (l : list ascii) (acc : Z) (after : bool) :
  forallb is_digit l = true -> (l <> [] \/ after = true) ->
  digits_value acc after l
  = Some (fold_left (fun a c => (a * 10 + default 0 (digit_value c))%Z) l acc).
Proof.
  revert acc after. induction l as [| c l IH]; intros acc after H Hne.
  - destruct Hne as [Hne | ->]; [congruence | reflexivity].
  - simpl in H. apply andb_true_iff in H. destruct H as [Hc Hl].
    unfold is_digit in Hc. simpl.
    destruct (digit_value c) as [v |]; [| discriminate].
    apply IH; [exact Hl | right; reflexivity].
Qed.

Lemma py_int_digit_field (f : string) :
  digit_field f = true -> py_int f = Ok (decimal_value f).
Proof.
  unfold digit_field, py_int, decimal_value.
  set (l := String.list_ascii_of_string f).
  intros H. apply andb_true_iff in H. destruct H as [H Hd].
  apply andb_true_iff in H. destruct H as [Hlen _].
  apply Nat.leb_le in Hlen.
  rewrite (strip_digits l Hd).
  destruct l as [| c l'] eqn:E; [simpl in Hlen; lia |].
  assert (Hc : is_digit c = true).
  { simpl in Hd. apply andb_true_iff in Hd. apply Hd. }
  apply is_digit_plain in Hc. destruct Hc as (_ & Hm & Hp).
  rewrite Hm, Hp. cbn [fst snd].
  rewrite (digits_value_digits (c :: l') 0 false Hd); [reflexivity |].
  left. discriminate.
Qed.

(** X18: when the first two colon-separated fields of the string consist
    of decimal digits only (1 to 4300 of them), whatever their number, the
    result is the number in the first field times 60 plus the number in
    the second: for instance "123:45:06" gives 7425. *)
Theorem duration_any_digits (s f0 f1 : string) (fs : list string) :
  split_colon s = f0 :: f1 :: fs ->
  digit_field f0 = true -> digit_field f1 = true ->
  get_minutes_from_duration_string s
  = Ok (decimal_value f0 * 60 + decimal_value f1)%Z.
Proof.
  intros Hs H0 H1. unfold get_minutes_from_duration_string.
  rewrite Hs. cbn [index nth_error mbind result_bind].
  rewrite (py_int_digit_field f0 H0). cbn [mbind result_bind].
  rewrite (py_int_digit_field f1 H1). reflexivity.
Qed.

Lemma duration_any_digits_witness :
  get_minutes_from_duration_string "123:45:06" = Ok 7425%Z.
Proof.
  apply (duration_any_digits "123:45:06" "123" "45" ["06"]); reflexivity.
Defined.

(** ** Line 71 in binary64 *)

Lemma sumQ_map_perm {A} (f : A -> Q) (l1 l2 : list A) :
  Permutation l1 l2 -> sumQ (map f l1) == sumQ (map f l2).
Proof.
  induction 1 as [| x l1 l2 _ IH | x y l | l1 l2 l3 _ IH1 _ IH2]; simpl.
  - reflexivity.
  - rewrite IH. reflexivity.
  - lra.
  - rewrite IH1. exact IH2.
Qed.

(** ** Binary64 rounding *)

Lemma pow2_pos (e : Z) : 0 < pow2 e.
Proof. apply Qpower_0_lt. reflexivity. Qed.

Lemma pow2_add (a b : Z) : pow2 (a + b) == pow2 a * pow2 b.
Proof. apply Qpower_plus. discriminate. Qed.

Lemma pow2_sub (a b : Z) : pow2 (a - b) == pow2 a / pow2 b.
Proof. apply Qpower_minus. discriminate. Qed.

Lemma pow2_le (a b : Z) : (a <= b)%Z -> pow2 a <= pow2 b.
Proof. intros H. apply Qpower_le_compat_l; [exact H | discriminate]. Qed.

Lemma pow2_lt (a b : Z) : (a < b)%Z -> pow2 a < pow2 b.
Proof. intros H. apply Qpower_lt_compat_l; [exact H | reflexivity]. Qed.

Lemma pow2_lt_inv (a b : Z) : pow2 a < pow2 b -> (a < b)%Z.
Proof. intros H. eapply Qpower_lt_compat_l_inv; [exact H | reflexivity]. Qed.

Lemma pow2_Z (k : Z) : (0 <= k)%Z -> pow2 k == inject_Z (2 ^ k).
Proof. intros H. unfold pow2. rewrite Zpower_Qpower by exact H. reflexivity. Qed.

Lemma pow2_succ (e : Z) : pow2 (e + 1) == 2 * pow2 e.
Proof. rewrite pow2_add. change (pow2 1) with 2. ring. Qed.

Lemma pow2_pred (e : Z) : pow2 (e - 1) == pow2 e * (1 # 2).
Proof. rewrite pow2_sub. change (pow2 1) with 2. field. Qed.

Lemma Qabs_num_den (q : Q) :
  Qabs q == inject_Z (Z.abs (Qnum q)) / inject_Z (Z.pos (Qden q)).
Proof.
  destruct q as [n d]. simpl. unfold Qdiv, Qinv, Qmult, Qeq. simpl. lia.
Qed.

(** The exponent of a non-zero rational: 2^e <= |q| < 2^(e+1). *)
Lemma ilog2_spec (q : Q) :
  ~ q == 0 -> pow2 (ilog2 q) <= Qabs q /\ Qabs q < pow2 (ilog2 q + 1).
Proof.
  intros Hq. unfold ilog2.
  set (a := Z.abs (Qnum q)). set (b := Z.pos (Qden q)).
  assert (Ha : (0 < a)%Z).
  { unfold a. destruct q as [n d]. unfold Qeq in Hq. simpl in *. lia. }
  assert (Hb : (0 < b)%Z) by (unfold b; lia).
  pose proof (Z.log2_spec a Ha) as [Ha1 Ha2].
  pose proof (Z.log2_spec b Hb) as [Hb1 Hb2].
  pose proof (Z.log2_nonneg a) as Hla. pose proof (Z.log2_nonneg b) as Hlb.
  set (la := Z.log2 a) in *. set (lb := Z.log2 b) in *.
  assert (Qa1 : pow2 la <= inject_Z a)
    by (rewrite pow2_Z by lia; rewrite <- Zle_Qle; exact Ha1).
  assert (Qa2 : inject_Z a < pow2 (la + 1)).
  { rewrite pow2_Z by lia. rewrite <- Zlt_Qlt. exact Ha2. }
  assert (Qb1 : pow2 lb <= inject_Z b)
    by (rewrite pow2_Z by lia; rewrite <- Zle_Qle; exact Hb1).
  assert (Qb2 : inject_Z b < pow2 (lb + 1)).
  { rewrite pow2_Z by lia. rewrite <- Zlt_Qlt. exact Hb2. }
  assert (Qb0 : 0 < inject_Z b).
  { change 0 with (inject_Z 0). rewrite <- Zlt_Qlt. exact Hb. }
  pose proof (Qabs_num_den q) as Habs. fold a b in Habs.
  pose proof (pow2_pos la). pose proof (pow2_pos lb).
  pose proof (pow2_pos (la - lb)) as Hp.
  (* bounds on |q| *)
  assert (Hup : Qabs q < pow2 (la - lb + 1)).
  { rewrite Habs. apply Qlt_shift_div_r; [exact Qb0 |].
    replace (la - lb + 1)%Z with ((la + 1) - lb)%Z by lia.
    rewrite pow2_sub.
    assert (pow2 (la + 1) / pow2 lb * pow2 lb == pow2 (la + 1)) by (field; lra).
    assert (pow2 (la + 1) / pow2 lb * pow2 lb
            <= pow2 (la + 1) / pow2 lb * inject_Z b).
    { apply Qmult_le_l; [| exact Qb1].
      apply Qlt_shift_div_l; [assumption |]. pose proof (pow2_pos (la + 1)). lra. }
    lra. }
  assert (Hlow : pow2 (la - lb - 1) <= Qabs q).
  { rewrite Habs. apply Qle_shift_div_l; [exact Qb0 |].
    replace (la - lb - 1)%Z with (la - (lb + 1))%Z by lia.
    rewrite pow2_sub. pose proof (pow2_pos (lb + 1)).
    assert (pow2 la / pow2 (lb + 1) * pow2 (lb + 1) == pow2 la) by (field; lra).
    assert (pow2 la / pow2 (lb + 1) * inject_Z b
            <= pow2 la / pow2 (lb + 1) * pow2 (lb + 1)).
    { apply Qmult_le_l; [| lra].
      apply Qlt_shift_div_l; [assumption |]. lra. }
    lra. }
  destruct (Qle_bool (pow2 (la - lb)) (Qabs q)) eqn:E.
  - apply Qle_bool_iff in E. split; assumption.
  - assert (E' : Qabs q < pow2 (la - lb)).
    { destruct (Qlt_le_dec (Qabs q) (pow2 (la - lb))) as [Hl | Hl]; [exact Hl |].
      apply Qle_bool_iff in Hl. congruence. }
    replace (la - lb - 1 + 1)%Z with (la - lb)%Z by lia. split; assumption.
Qed.

Lemma ilog2_lower (q : Q) (e : Z) :
  ~ q == 0 -> pow2 e <= Qabs q -> (e <= ilog2 q)%Z.
Proof.
  intros Hq He. destruct (ilog2_spec q Hq) as [_ Hup].
  assert (H : pow2 e < pow2 (ilog2 q + 1)) by lra.
  apply pow2_lt_inv in H. lia.
Qed.

Lemma ilog2_upper (q : Q) (e : Z) :
  ~ q == 0 -> Qabs q < pow2 e -> (ilog2 q < e)%Z.
Proof.
  intros Hq He. destruct (ilog2_spec q Hq) as [Hlo _].
  assert (H : pow2 (ilog2 q) < pow2 e) by lra.
  apply pow2_lt_inv in H. exact H.
Qed.

Lemma round_half_even_Z (x : Q) (z : Z) :
  x == inject_Z z -> round_half_even x = z.
Proof.
  intros H. unfold round_half_even.
  rewrite (Qfloor_comp _ _ H), Qfloor_Z.
  assert (E : Qcompare (x - inject_Z z) (1 # 2) = Lt).
  { rewrite <- Qlt_alt. rewrite H. lra. }
  rewrite E. reflexivity.
Qed.

Lemma b64_fin_zero (q : Q) : q == 0 -> b64_fin q = 0.
Proof.
  intros H. unfold b64_fin. apply Qeq_bool_iff in H. rewrite H. reflexivity.
Qed.

Lemma b64_fin_nonzero (q : Q) :
  ~ q == 0 ->
  b64_fin q
  = inject_Z (round_half_even (q / pow2 (Z.max (ilog2 q) (-1022) - 52)))
    * pow2 (Z.max (ilog2 q) (-1022) - 52).
Proof.
  intros H. unfold b64_fin.
  destruct (Qeq_bool q 0) eqn:E; [| reflexivity].
  apply Qeq_bool_iff in E. contradiction.
Qed.

(** The result is within half a unit in the last place of the argument. *)
Lemma b64_fin_error (q : Q) :
  ~ q == 0 ->
  Qabs (b64_fin q - q) <= pow2 (Z.max (ilog2 q) (-1022) - 53).
Proof.
  intros Hq. rewrite (b64_fin_nonzero q Hq).
  set (e := Z.max (ilog2 q) (-1022)).
  pose proof (pow2_pos (e - 52)) as Hp.
  destruct (round_half_even_near (q / pow2 (e - 52))) as [Hlo Hhi].
  set (m := inject_Z (round_half_even (q / pow2 (e - 52)))) in *.
  assert (Hq' : q == q / pow2 (e - 52) * pow2 (e - 52)) by (field; lra).
  set (y := q / pow2 (e - 52)) in *.
  replace (e - 53)%Z with (e - 52 - 1)%Z by lia. rewrite pow2_pred.
  set (P := pow2 (e - 52)) in *.
  apply Qabs_Qle_condition. split.
  - assert (0 <= (m - y + (1 # 2)) * P) by (apply Qmult_le_0_compat; lra).
    lra.
  - assert (0 <= (y - m + (1 # 2)) * P) by (apply Qmult_le_0_compat; lra).
    lra.
Qed.

(** In the normal range the relative error is at most 2^-53. *)
Lemma b64_fin_error_normal (q : Q) :
  pow2 (-1022) <= Qabs q ->
  Qabs (b64_fin q - q) <= unit_roundoff * Qabs q.
Proof.
  intros Hn.
  assert (Hq : ~ q == 0).
  { intros H. rewrite H in Hn. pose proof (pow2_pos (-1022)).
    change (Qabs 0) with 0 in Hn. lra. }
  pose proof (b64_fin_error q Hq) as He.
  pose proof (ilog2_lower q (-1022) Hq Hn) as Hl.
  rewrite Z.max_l in He by lia.
  destruct (ilog2_spec q Hq) as [Hlo _].
  replace (ilog2 q - 53)%Z with (-53 + ilog2 q)%Z in He by lia.
  rewrite pow2_add in He. unfold unit_roundoff.
  pose proof (pow2_pos (-53)).
  assert (pow2 (-53) * pow2 (ilog2 q) <= pow2 (-53) * Qabs q)
    by (apply Qmult_le_l; assumption).
  lra.
Qed.

(** Every result is a multiple of the smallest positive number 2^-1074. *)
Lemma b64_fin_grid (q : Q) :
  exists k : Z, b64_fin q == inject_Z k * pow2 (-1074).
Proof.
  destruct (Qeq_dec q 0) as [Hq | Hq].
  - exists 0%Z. rewrite (b64_fin_zero q Hq). ring.
  - rewrite (b64_fin_nonzero q Hq).
    set (e := Z.max (ilog2 q) (-1022)).
    set (m := round_half_even _).
    exists (m * 2 ^ (e + 1022))%Z.
    rewrite inject_Z_mult, <- pow2_Z by lia.
    replace (e - 52)%Z with ((e + 1022) + -1074)%Z by lia.
    rewrite pow2_add. ring.
Qed.

(** A multiple of a power of two that is at least the spacing of the
    numbers around it is left unchanged. *)
Lemma b64_fin_exact (q : Q) (k g : Z) :
  ~ q == 0 -> q == inject_Z k * pow2 g ->
  (Z.max (ilog2 q) (-1022) - 52 <= g)%Z ->
  b64_fin q == q.
Proof.
  intros Hq Hk Hg. rewrite (b64_fin_nonzero q Hq).
  set (e := Z.max (ilog2 q) (-1022)) in *.
  pose proof (pow2_pos (e - 52)) as Hp.
  assert (Hy : q / pow2 (e - 52) == inject_Z (k * 2 ^ (g - (e - 52)))).
  { rewrite inject_Z_mult, <- pow2_Z by lia.
    rewrite Hk, (pow2_sub g (e - 52)).
    set (a := pow2 g). set (b := pow2 (e - 52)) in *. field. lra. }
  rewrite (round_half_even_Z _ _ Hy), <- Hy.
  set (P := pow2 (e - 52)) in *. field. lra.
Qed.

Lemma b64_fin_error_grid (q : Q) (k : Z) :
  q == inject_Z k * pow2 (-1074) ->
  Qabs (b64_fin q - q) <= unit_roundoff * Qabs q.
Proof.
  intros Hk.
  destruct (Qeq_dec q 0) as [Hq | Hq].
  - rewrite (b64_fin_zero q Hq), Hq. vm_compute. discriminate.
  - destruct (Qlt_le_dec (Qabs q) (pow2 (-1022))) as [Hs | Hn].
    + assert (He : b64_fin q == q).
      { apply (b64_fin_exact q k (-1074) Hq Hk).
        pose proof (ilog2_upper q (-1022) Hq Hs). lia. }
      assert (Hz : b64_fin q - q == 0) by lra.
      rewrite Hz. change (Qabs 0) with 0.
      pose proof (Qabs_nonneg q). unfold unit_roundoff.
      pose proof (pow2_pos (-53)).
      apply Qmult_le_0_compat; lra.
    + apply b64_fin_error_normal, Hn.
Qed.

Lemma b64_fin_integer (k : Z) :
  (Z.abs k < 2 ^ 53)%Z -> b64_fin (inject_Z k) == inject_Z k.
Proof.
  intros Hk. destruct (Z.eq_dec k 0%Z) as [-> | Hk0]; [reflexivity |].
  assert (Hq : ~ inject_Z k == 0).
  { unfold Qeq. simpl. lia. }
  apply (b64_fin_exact _ k 0 Hq); [change (pow2 0) with 1; ring |].
  assert (Hlt : Qabs (inject_Z k) < pow2 53).
  { rewrite pow2_Z by lia. unfold inject_Z, Qabs. simpl.
    unfold Qlt. simpl. lia. }
  pose proof (ilog2_upper _ 53 Hq Hlt). lia.
Qed.

Lemma b64_finite (q : Q) :
  Qabs q <= pow2 1023 ->
  Qabs (b64_fin q - q) <= unit_roundoff * Qabs q ->
  b64 q = Fin (b64_fin q).
Proof.
  intros Hq He. unfold b64.
  destruct (Qle_bool (pow2 1024) (Qabs (b64_fin q))) eqn:E; [| reflexivity].
  apply Qle_bool_iff in E. exfalso.
  pose proof (Qabs_triangle (b64_fin q - q) q) as Ht.
  assert (Hs : b64_fin q - q + q == b64_fin q) by ring.
  rewrite Hs in Ht.
  assert (Hu : unit_roundoff <= 1 # 2) by (vm_compute; discriminate).
  pose proof (Qabs_nonneg q) as Hn.
  assert (unit_roundoff * Qabs q <= (1 # 2) * Qabs q)
    by (apply Qmult_le_compat_r; assumption).
  assert (Hp : pow2 1024 == 2 * pow2 1023) by (apply (pow2_succ 1023)).
  pose proof (pow2_pos 1023). lra.
Qed.

(** ** Error growth *)

Lemma unit_roundoff_pos : 0 < unit_roundoff.
Proof. apply pow2_pos. Qed.

Lemma gpow_ge_1 (n : nat) : 1 <= gpow n.
Proof.
  induction n as [| n IH]; simpl; [lra |].
  pose proof unit_roundoff_pos.
  assert (0 <= unit_roundoff * gpow n) by (apply Qmult_le_0_compat; lra).
  lra.
Qed.

Lemma gpow_add (a b : nat) : gpow (a + b) == gpow a * gpow b.
Proof. induction a as [| a IH]; simpl; [ring | rewrite IH; ring]. Qed.

Lemma gpow_mono (a b : nat) : (a <= b)%nat -> gpow a <= gpow b.
Proof.
  intros H. replace b with (a + (b - a))%nat by lia. rewrite gpow_add.
  pose proof (gpow_ge_1 a). pose proof (gpow_ge_1 (b - a)).
  assert (0 <= gpow a * (gpow (b - a) - 1)) by (apply Qmult_le_0_compat; lra).
  lra.
Qed.

(** While [2 n u <= 1], [(1 + u)^n <= 1 + 2 n u]. *)
Lemma gpow_linear (n : nat) :
  2 * Qnat n * unit_roundoff <= 1 ->
  gpow n <= 1 + 2 * Qnat n * unit_roundoff.
Proof.
  pose proof unit_roundoff_pos as Hu.
  induction n as [| n IH]; intros H.
  - change (Qnat 0) with 0. simpl. lra.
  - assert (Hn : Qnat (S n) == Qnat n + 1).
    { unfold Qnat. rewrite Nat2Z.inj_succ, <- Z.add_1_r, inject_Z_plus.
      reflexivity. }
    assert (Hn0 : 0 <= Qnat n).
    { unfold Qnat. change 0 with (inject_Z 0). rewrite <- Zle_Qle. lia. }
    rewrite Hn in H |- *.
    assert (H0 : 0 <= Qnat n * unit_roundoff)
      by (apply Qmult_le_0_compat; lra).
    assert (H' : 2 * Qnat n * unit_roundoff <= 1) by lra.
    specialize (IH H'). simpl.
    assert (H1 : (1 + unit_roundoff) * gpow n
                 <= (1 + unit_roundoff) * (1 + 2 * Qnat n * unit_roundoff)).
    { apply Qmult_le_l; lra. }
    assert (H2 : 0 <= unit_roundoff * (1 - 2 * Qnat n * unit_roundoff)).
    { apply Qmult_le_0_compat; lra. }
    lra.
Qed.

Lemma sumQ_app (l1 l2 : list Q) : sumQ (l1 ++ l2) == sumQ l1 + sumQ l2.
Proof. induction l1 as [| x l1 IH]; simpl; [ring | rewrite IH; ring]. Qed.

Lemma sum_abs_nonneg (l : list xq) : 0 <= sum_abs l.
Proof.
  unfold sum_abs. induction l as [| x l IH]; cbn [map sumQ fold_right].
  - unfold sumQ. simpl. lra.
  - unfold sumQ in *. cbn [fold_right].
    pose proof (Qabs_nonneg (finite_part x)). lra.
Qed.

Lemma sum_fin_abs (l : list xq) : Qabs (sum_fin l) <= sum_abs l.
Proof.
  unfold sum_fin, sum_abs, sumQ in *.
  induction l as [| x l IH]; cbn [map fold_right].
  - change (Qabs 0) with 0. lra.
  - pose proof (Qabs_triangle (finite_part x)
                  (fold_right Qplus 0 (map finite_part l))).
    lra.
Qed.

Lemma sum_app (l1 l2 : list xq) :
  sum_fin (l1 ++ l2) == sum_fin l1 + sum_fin l2
  /\ sum_abs (l1 ++ l2) == sum_abs l1 + sum_abs l2.
Proof.
  unfold sum_fin, sum_abs. rewrite !List.map_app, !sumQ_app. split; reflexivity.
Qed.

(** One more rounding on top of two partial sums. *)
Lemma error_step (u gl gr gp Al Ar el er e3 : Q) :
  0 <= u -> 0 <= Al -> 0 <= Ar ->
  (1 + u) * gl <= gp -> (1 + u) * gr <= gp ->
  el <= (gl - 1) * Al -> er <= (gr - 1) * Ar ->
  e3 <= u * (gl * Al + gr * Ar) ->
  e3 + el + er <= (gp - 1) * (Al + Ar).
Proof.
  intros Hu HAl HAr Hgl Hgr Hel Her He3.
  assert (0 <= (gp - (1 + u) * gl) * Al) by (apply Qmult_le_0_compat; lra).
  assert (0 <= (gp - (1 + u) * gr) * Ar) by (apply Qmult_le_0_compat; lra).
  lra.
Qed.

Lemma on_grid_add (x y : Q) (kx ky : Z) :
  x == inject_Z kx * pow2 (-1074) -> y == inject_Z ky * pow2 (-1074) ->
  x + y == inject_Z (kx + ky) * pow2 (-1074).
Proof. intros -> ->. rewrite inject_Z_plus. ring. Qed.

(** The sum formed in any order: finite, and within the accumulated
    relative error of the exact sum. *)
Lemma sum_order_error (t : sum_order) :
  Forall on_grid (terms_of t) ->
  gpow (plus_count t) * sum_abs (terms_of t) <= pow2 1023 ->
  exists v : Q,
    sum_b64 t = Fin v
    /\ on_grid (Fin v)
    /\ Qabs (v - sum_fin (terms_of t))
       <= (gpow (plus_count t) - 1) * sum_abs (terms_of t).
Proof.
  induction t as [x | l IHl r IHr]; intros Hgrid Hmax.
  - inversion Hgrid as [| ? ? Hx _]; subst.
    destruct Hx as (q & k & -> & Hk).
    exists q. split; [reflexivity |]. split; [exists q, k; auto |].
    unfold sum_fin, sum_abs, sumQ.
    cbn [terms_of plus_count map fold_right finite_part gpow].
    assert (Hz : q - (q + 0) == 0) by ring. rewrite Hz.
    change (Qabs 0) with 0. pose proof (Qabs_nonneg q). lra.
  - cbn [terms_of plus_count sum_b64] in *.
    apply Forall_app in Hgrid. destruct Hgrid as [Hgl Hgr].
    destruct (sum_app (terms_of l) (terms_of r)) as [HS HA].
    pose proof (sum_abs_nonneg (terms_of l)) as HAl.
    pose proof (sum_abs_nonneg (terms_of r)) as HAr.
    set (pl := plus_count l) in *. set (pr := plus_count r) in *.
    set (Al := sum_abs (terms_of l)) in *.
    set (Ar := sum_abs (terms_of r)) in *.
    pose proof (gpow_ge_1 pl) as Hg1l. pose proof (gpow_ge_1 pr) as Hg1r.
    pose proof unit_roundoff_pos as Hu.
    assert (Hsl : (1 + unit_roundoff) * gpow pl <= gpow (S (pl + pr))).
    { change ((1 + unit_roundoff) * gpow pl) with (gpow (S pl)).
      apply gpow_mono. lia. }
    assert (Hsr : (1 + unit_roundoff) * gpow pr <= gpow (S (pl + pr))).
    { change ((1 + unit_roundoff) * gpow pr) with (gpow (S pr)).
      apply gpow_mono. lia. }
    set (gp := gpow (S (pl + pr))) in *.
    rewrite HA in Hmax.
    assert (Hpl : 0 <= (gp - gpow pl) * Al).
    { apply Qmult_le_0_compat; [| exact HAl].
      assert (0 <= unit_roundoff * gpow pl) by (apply Qmult_le_0_compat; lra).
      lra. }
    assert (Hpr : 0 <= (gp - gpow pr) * Ar).
    { apply Qmult_le_0_compat; [| exact HAr].
      assert (0 <= unit_roundoff * gpow pr) by (apply Qmult_le_0_compat; lra).
      lra. }
    assert (Hgp : 1 <= gp) by (unfold gp; apply gpow_ge_1).
    assert (HgAl : 0 <= gp * Ar) by (apply Qmult_le_0_compat; lra).
    assert (HgAr : 0 <= gp * Al) by (apply Qmult_le_0_compat; lra).
    destruct (IHl Hgl ltac:(lra)) as (vl & El & Gl & Hl).
    destruct (IHr Hgr ltac:(lra)) as (vr & Er & Gr & Hr).
    destruct Gl as (ql & kl & Eql & Hkl). injection Eql as <-.
    destruct Gr as (qr & kr & Eqr & Hkr). injection Eqr as <-.
    rewrite El, Er. unfold B64.add. cbn [XQ.add B64.round].
    pose proof (on_grid_add vl vr kl kr Hkl Hkr) as Hk.
    pose proof (b64_fin_error_grid (vl + vr) (kl + kr) Hk) as He.
    (* magnitudes *)
    pose proof (sum_fin_abs (terms_of l)) as HSl.
    pose proof (sum_fin_abs (terms_of r)) as HSr.
    fold Al in HSl. fold Ar in HSr.
    set (Sl := sum_fin (terms_of l)) in *.
    set (Sr := sum_fin (terms_of r)) in *.
    assert (Hvl : Qabs vl <= gpow pl * Al).
    { pose proof (Qabs_triangle (vl - Sl) Sl) as Ht.
      assert (Hs : vl - Sl + Sl == vl) by ring. rewrite Hs in Ht. lra. }
    assert (Hvr : Qabs vr <= gpow pr * Ar).
    { pose proof (Qabs_triangle (vr - Sr) Sr) as Ht.
      assert (Hs : vr - Sr + Sr == vr) by ring. rewrite Hs in Ht. lra. }
    pose proof (Qabs_triangle vl vr) as Hvv.
    assert (Hfin : b64 (vl + vr) = Fin (b64_fin (vl + vr))).
    { apply b64_finite; [lra | exact He]. }
    rewrite Hfin. exists (b64_fin (vl + vr)).
    split; [reflexivity |]. split.
    { destruct (b64_fin_grid (vl + vr)) as [k' Hk']. eexists _, k'. eauto. }
    rewrite HS, HA.
    assert (He3 : Qabs (b64_fin (vl + vr) - (vl + vr))
                  <= unit_roundoff * (gpow pl * Al + gpow pr * Ar)).
    { assert (unit_roundoff * Qabs (vl + vr)
              <= unit_roundoff * (gpow pl * Al + gpow pr * Ar))
        by (apply Qmult_le_l; lra).
      lra. }
    pose proof (error_step unit_roundoff (gpow pl) (gpow pr) gp Al Ar
                  _ _ _ ltac:(lra) HAl HAr Hsl Hsr Hl Hr He3) as Hstep.
    set (v := b64_fin (vl + vr)) in *.
    pose proof (Qabs_triangle (v - (vl + vr)) ((vl - Sl) + (vr - Sr))) as T1.
    pose proof (Qabs_triangle (vl - Sl) (vr - Sr)) as T2.
    assert (Hs : v - (vl + vr) + (vl - Sl + (vr - Sr)) == v - (Sl + Sr))
      by ring.
    rewrite Hs in T1. lra.
Qed.

(** ** Counts as binary64 values *)

Lemma Qnat_nonneg (n : nat) : 0 <= Qnat n.
Proof. unfold Qnat. change 0 with (inject_Z 0). rewrite <- Zle_Qle. lia. Qed.

Lemma Qnat_le (a b : nat) : (a <= b)%nat -> Qnat a <= Qnat b.
Proof. intros H. unfold Qnat. rewrite <- Zle_Qle. lia. Qed.

Lemma Qnat_ge_1 (n : nat) : (0 < n)%nat -> 1 <= Qnat n.
Proof.
  intros H. unfold Qnat. change 1 with (inject_Z 1). rewrite <- Zle_Qle. lia.
Qed.

Lemma Qnat_below (n : nat) (k : Z) :
  (0 <= k)%Z -> (Z.of_nat n < 2 ^ k)%Z -> Qnat n <= pow2 k.
Proof.
  intros Hk H. rewrite pow2_Z by exact Hk. unfold Qnat.
  rewrite <- Zle_Qle. lia.
Qed.

(** Counts below 2^53 are converted without rounding. *)
Lemma of_nat_exact (n : nat) :
  (Z.of_nat n < 2 ^ 53)%Z ->
  exists c : Q, B64.of_nat n = Fin c /\ c == Qnat n.
Proof.
  intros Hn. exists (b64_fin (Qnat n)).
  assert (He : b64_fin (Qnat n) == Qnat n).
  { apply b64_fin_integer. lia. }
  split; [| exact He].
  unfold B64.of_nat. apply b64_finite.
  - rewrite Qabs_pos by apply Qnat_nonneg.
    apply Qle_trans with (pow2 53); [| apply pow2_le; lia].
    apply Qnat_below; [lia | exact Hn].
  - assert (Hz : b64_fin (Qnat n) - Qnat n == 0) by (rewrite He; ring).
    rewrite Hz. change (Qabs 0) with 0.
    apply Qmult_le_0_compat;
      [apply Qlt_le_weak, unit_roundoff_pos | apply Qabs_nonneg].
Qed.

(** The weight of a bucket: one rounding of [count / total], a value
    between 2^-53 and 1. *)
Lemma weight_b64 (c S : nat) :
  (0 < c)%nat -> (c <= S)%nat -> (Z.of_nat S < 2 ^ 53)%Z ->
  exists w : Q,
    B64.div (B64.of_nat c) (B64.of_nat S) = Fin w
    /\ Qabs (w - Qnat c / Qnat S) <= unit_roundoff * (Qnat c / Qnat S)
    /\ pow2 (-53) <= Qnat c / Qnat S
    /\ Qnat c / Qnat S <= 1.
Proof.
  intros Hc HcS HS.
  destruct (of_nat_exact c ltac:(lia)) as (c' & Ec & Hc').
  destruct (of_nat_exact S HS) as (S' & ES & HS').
  rewrite Ec, ES. unfold B64.div. cbn [XQ.div].
  pose proof (Qnat_ge_1 c Hc) as H1. pose proof (Qnat_le c S HcS) as H2.
  pose proof (Qnat_below S 53 ltac:(lia) HS) as H3.
  assert (HS0 : Qeq_bool S' 0 = false).
  { destruct (Qeq_bool S' 0) eqn:E; [| reflexivity].
    apply Qeq_bool_iff in E. lra. }
  rewrite HS0. cbn [B64.round].
  set (x := c' / S').
  assert (Hx : x == Qnat c / Qnat S).
  { unfold x. rewrite Hc', HS'. reflexivity. }
  assert (Hlo : pow2 (-53) <= Qnat c / Qnat S).
  { apply Qle_shift_div_l; [lra |].
    assert (pow2 (-53) * Qnat S <= pow2 (-53) * pow2 53).
    { apply Qmult_le_l; [apply pow2_pos | exact H3]. }
    assert (pow2 (-53) * pow2 53 == 1) by (rewrite <- pow2_add; reflexivity).
    lra. }
  assert (Hhi : Qnat c / Qnat S <= 1) by (apply Qle_shift_div_r; lra).
  pose proof (pow2_pos (-53)) as Hp.
  assert (Hax : Qabs x == x) by (apply Qabs_pos; lra).
  assert (He : Qabs (b64_fin x - x) <= unit_roundoff * Qabs x).
  { apply b64_fin_error_normal. rewrite Hax, Hx.
    apply Qle_trans with (pow2 (-53)); [apply pow2_le; lia | exact Hlo]. }
  exists (b64_fin x). split.
  - apply b64_finite; [| exact He]. rewrite Hax, Hx.
    apply Qle_trans with 1; [exact Hhi |].
    change 1 with (pow2 0). apply pow2_le. lia.
  - split; [| split; assumption]. rewrite <- Hx. rewrite Hax in He. exact He.
Qed.

Lemma drift_in_range_cases (x : xq) :
  drift_in_range x = true ->
  exists d : Q,
    x = Fin d
    /\ (d == 0 \/ pow2 (-900) <= Qabs d /\ Qabs d <= pow2 900).
Proof.
  destruct x as [d | | |]; cbn [drift_in_range]; try discriminate.
  intros H. exists d. split; [reflexivity |].
  apply orb_true_iff in H. destruct H as [H | H].
  - left. apply Qeq_bool_iff. exact H.
  - right. apply andb_true_iff in H. destruct H as [Ha Hb].
    split; apply Qle_bool_iff; assumption.
Qed.

(** One term of the series: two roundings on top of [drift * count / total]. *)
Lemma term_b64 (d : Q) (c S : nat) :
  d == 0 \/ pow2 (-900) <= Qabs d /\ Qabs d <= pow2 900 ->
  (0 < c)%nat -> (c <= S)%nat -> (Z.of_nat S < 2 ^ 53)%Z ->
  exists p : Q,
    B64.mul (Fin d) (B64.div (B64.of_nat c) (B64.of_nat S)) = Fin p
    /\ on_grid (Fin p)
    /\ Qabs (p - d * (Qnat c / Qnat S))
       <= (gpow 2 - 1) * Qabs (d * (Qnat c / Qnat S)).
Proof.
  intros Hd Hc HcS HS.
  destruct (weight_b64 c S Hc HcS HS) as (w & Ew & Hw & Hlo & Hhi).
  rewrite Ew. unfold B64.mul. cbn [XQ.mul B64.round].
  set (x := Qnat c / Qnat S) in *.
  pose proof unit_roundoff_pos as Hu.
  assert (Hu1 : unit_roundoff <= 1 # 2).
  { apply Qle_bool_iff. vm_compute. reflexivity. }
  pose proof (pow2_pos (-53)) as Hp.
  apply Qabs_Qle_condition in Hw. destruct Hw as [Hw1 Hw2].
  assert (Hux : 0 <= unit_roundoff * x) by (apply Qmult_le_0_compat; lra).
  assert (Hux1 : unit_roundoff * x <= unit_roundoff * 1)
    by (apply Qmult_le_l; lra).
  assert (Hwpos : 0 < w).
  { assert (0 <= (1 - 2 * unit_roundoff) * x)
      by (apply Qmult_le_0_compat; lra).
    lra. }
  assert (Hwx : Qabs (w - x) <= unit_roundoff * x).
  { apply Qabs_Qle_condition. split; lra. }
  set (y := d * w).
  pose proof (Qabs_nonneg d) as HD.
  assert (Hy : Qabs y == Qabs d * w).
  { unfold y. rewrite Qabs_Qmult, (Qabs_pos w) by lra. reflexivity. }
  assert (Hdx : Qabs (d * x) == Qabs d * x).
  { rewrite Qabs_Qmult, (Qabs_pos x) by lra. reflexivity. }
  assert (Hyx : Qabs (y - d * x) == Qabs d * Qabs (w - x)).
  { unfold y. rewrite <- Qabs_Qmult. apply Qabs_wd. ring. }
  assert (He : Qabs (b64_fin y - y) <= unit_roundoff * Qabs y
               /\ Qabs y <= pow2 1023).
  { destruct Hd as [Hd | [Hd1 Hd2]].
    - assert (Hy0 : y == 0) by (unfold y; rewrite Hd; ring).
      rewrite (b64_fin_zero y Hy0).
      assert (Hz : 0 - y == 0) by (rewrite Hy0; ring).
      rewrite Hz, Hy0. change (Qabs 0) with 0.
      pose proof (pow2_pos 1023). split; lra.
    - split.
      + apply b64_fin_error_normal. rewrite Hy.
        assert (Hw54 : pow2 (-54) <= w).
        { assert (pow2 (-54) <= (1 - unit_roundoff) * pow2 (-53)).
          { apply Qle_bool_iff. vm_compute. reflexivity. }
          assert ((1 - unit_roundoff) * pow2 (-53) <= (1 - unit_roundoff) * x).
          { apply Qmult_le_l; lra. }
          lra. }
        apply Qle_trans with (pow2 (-900) * pow2 (-54)).
        * rewrite <- pow2_add. apply pow2_le. lia.
        * apply Qmult_le_compat_nonneg; split;
            try (apply Qlt_le_weak, pow2_pos); assumption.
      + rewrite Hy.
        apply Qle_trans with (pow2 900 * pow2 1).
        * apply Qmult_le_compat_nonneg; split; try lra.
          change (pow2 1) with 2. lra.
        * rewrite <- pow2_add. apply pow2_le. lia. }
  destruct He as [He Hfin].
  exists (b64_fin y). split; [apply b64_finite; assumption |]. split.
  { destruct (b64_fin_grid y) as [k Hk]. exists (b64_fin y), k. auto. }
  rewrite Hdx. rewrite Hy in He.
  pose proof (Qabs_triangle (b64_fin y - y) (y - d * x)) as Ht.
  assert (Hs : b64_fin y - y + (y - d * x) == b64_fin y - d * x) by ring.
  rewrite Hs, Hyx in Ht.
  cbn [gpow].
  assert (F1 : 0 <= Qabs d * ((1 + unit_roundoff) * x - w))
    by (apply Qmult_le_0_compat; lra).
  assert (F2 : 0 <= unit_roundoff * (Qabs d * ((1 + unit_roundoff) * x - w)))
    by (apply Qmult_le_0_compat; lra).
  assert (F3 : 0 <= Qabs d * (unit_roundoff * x - Qabs (w - x)))
    by (apply Qmult_le_0_compat; lra).
  lra.
Qed.

(** ** The series of line 71 in binary64 *)

Lemma finite_part_Fin (ps : list Q) : map finite_part (map Fin ps) = ps.
Proof. induction ps as [| p ps IH]; simpl; [reflexivity | now rewrite IH]. Qed.

Lemma sum_fin_Fin (ps : list Q) : sum_fin (map Fin ps) = sumQ ps.
Proof. unfold sum_fin. now rewrite finite_part_Fin. Qed.

Lemma sum_abs_Fin (ps : list Q) : sum_abs (map Fin ps) = sumQ (map Qabs ps).
Proof.
  unfold sum_abs. f_equal.
  induction ps as [| p ps IH]; simpl; [reflexivity | now rewrite IH].
Qed.

Lemma sumQ_abs_nonneg (l : list Q) : 0 <= sumQ (map Qabs l).
Proof.
  unfold sumQ. induction l as [| x l IH]; cbn [map fold_right]; [lra |].
  pose proof (Qabs_nonneg x). lra.
Qed.

(** Every term is finite, and the terms are within two roundings of the
    exact ones. *)
Lemma weighted_terms_b64_error (S : nat) (tbl : list drift_row) :
  (Z.of_nat S < 2 ^ 53)%Z ->
  Forall (fun r => (0 < bin_count r)%nat /\ (bin_count r <= S)%nat
                   /\ drift_in_range (hr_drift_bpm r) = true) tbl ->
  exists ps : list Q,
    map (fun r => B64.mul (hr_drift_bpm r)
                    (B64.div (B64.of_nat (bin_count r)) (B64.of_nat S))) tbl
    = map Fin ps
    /\ length ps = length tbl
    /\ Forall on_grid (map Fin ps)
    /\ Qabs (sumQ ps - sumQ (weighted_terms (Qnat S) tbl))
       <= (gpow 2 - 1) * sumQ (map Qabs (weighted_terms (Qnat S) tbl))
    /\ sumQ (map Qabs ps)
       <= gpow 2 * sumQ (map Qabs (weighted_terms (Qnat S) tbl)).
Proof.
  intros HS Hall.
  pose proof (gpow_ge_1 2) as Hg. set (g := gpow 2) in *.
  induction Hall as [| r tbl (Hc & HcS & Hd) _ IH].
  - exists []. repeat split; try constructor.
    + unfold weighted_terms, sumQ. cbn [map fold_right].
      change (Qabs (0 - 0)) with 0. lra.
    + unfold weighted_terms, sumQ. cbn [map fold_right]. lra.
  - destruct IH as (ps & Eps & Hlen & Hgrid & Herr & Habs).
    destruct (drift_in_range_cases _ Hd) as (d & Ed & Hrange).
    destruct (term_b64 d (bin_count r) S Hrange Hc HcS HS)
      as (p & Ep & Gp & Hp).
    fold g in Hp.
    exists (p :: ps). cbn [map]. rewrite Eps, Ed, Ep.
    split; [reflexivity |]. split; [cbn [length]; now rewrite Hlen |].
    split; [constructor; assumption |].
    pose proof (sumQ_abs_nonneg (weighted_terms (Qnat S) tbl)) as HT.
    unfold weighted_terms, sumQ in *. cbn [map fold_right].
    rewrite Ed. cbn [finite_part].
    set (t := d * (Qnat (bin_count r) / Qnat S)) in *.
    set (T := fold_right Qplus 0 (map Qabs _)) in *.
    set (St := fold_right Qplus 0
                 (map (fun r => finite_part (hr_drift_bpm r)
                                * (Qnat (bin_count r) / Qnat S)) tbl)) in *.
    set (Sp := fold_right Qplus 0 ps) in *.
    set (Ap := fold_right Qplus 0 (map Qabs ps)) in *.
    pose proof (Qabs_nonneg t) as Ht.
    split.
    + pose proof (Qabs_triangle (p - t) (Sp - St)) as T1.
      assert (Hs : p - t + (Sp - St) == p + Sp - (t + St)) by ring.
      rewrite Hs in T1. lra.
    + pose proof (Qabs_triangle (p - t) t) as T1.
      assert (Hs : p - t + t == p) by ring.
      rewrite Hs in T1. lra.
Qed.

(** The weights add up to one, so the magnitudes of the exact terms add up
    to at most the largest magnitude of a drift. *)
Lemma abs_terms_bound (s m : Q) (tbl : list drift_row) :
  0 < s ->
  Forall (fun r => Qabs (finite_part (hr_drift_bpm r)) <= m) tbl ->
  sumQ (map Qabs (weighted_terms s tbl)) <= m * (total_count tbl / s).
Proof.
  intros Hs Hall. unfold weighted_terms, total_count, sumQ.
  induction Hall as [| r tbl Hr _ IH]; cbn [map fold_right].
  - unfold Qdiv. lra.
  - assert (Hc : 0 <= Qnat (bin_count r) / s).
    { apply Qle_shift_div_l; [exact Hs |]. rewrite Qmult_0_l.
      apply Qnat_nonneg. }
    rewrite Qabs_Qmult, (Qabs_pos (Qnat (bin_count r) / s)) by exact Hc.
    assert (Hm : Qabs (finite_part (hr_drift_bpm r))
                 * (Qnat (bin_count r) / s)
                 <= m * (Qnat (bin_count r) / s)).
    { apply Qmult_le_compat_r; assumption. }
    set (A := fold_right Qplus 0 (map Qabs _)) in *.
    set (B := fold_right Qplus 0 (map (fun r => Qnat (bin_count r)) tbl)) in *.
    assert (Hsplit : m * ((Qnat (bin_count r) + B) / s)
                     == m * (Qnat (bin_count r) / s) + m * (B / s)).
    { field. lra. }
    rewrite Hsplit. lra.
Qed.

Lemma fold_Qmax_bound (l : list Q) (a b : Q) :
  a <= b -> Forall (fun x => x <= b) l -> fold_left Qmax l a <= b.
Proof.
  revert a. induction l as [| x l IH]; intros a Ha Hall; simpl; [exact Ha |].
  inversion Hall as [| ? ? Hx Hl]; subst.
  apply IH; [| exact Hl]. apply Q.max_lub; assumption.
Qed.

Lemma max_list_bound (l : list Q) (b : Q) :
  l <> [] -> Forall (fun x => x <= b) l -> max_list l <= b.
Proof.
  intros Hne Hall. destruct l as [| a l]; [congruence |].
  inversion Hall; subst. simpl. apply fold_Qmax_bound; assumption.
Qed.

(** ** Counts of a table *)

Lemma count_sum_cons (c : nat) (l : list nat) :
  count_sum (c :: l) = (c + count_sum l)%nat.
Proof. unfold count_sum. simpl. apply count_sum_acc. Qed.

Lemma count_le_sum (l : list nat) : Forall (fun c => (c <= count_sum l)%nat) l.
Proof.
  induction l as [| c l IH]; constructor.
  - rewrite count_sum_cons. lia.
  - eapply Forall_impl; [exact IH |]. intros x Hx. cbn beta in *.
    rewrite count_sum_cons. lia.
Qed.

Lemma length_le_count_sum (l : list nat) :
  Forall (fun c => (0 < c)%nat) l -> (length l <= count_sum l)%nat.
Proof.
  induction 1 as [| c l Hc _ IH]; [simpl; lia |].
  rewrite count_sum_cons. simpl. lia.
Qed.

(** ** The order of the additions *)

Lemma terms_of_length (t : sum_order) :
  length (terms_of t) = S (plus_count t).
Proof.
  induction t as [x | l IHl r IHr]; simpl; [reflexivity |].
  rewrite length_app, IHl, IHr. lia.
Qed.

Lemma row_order_fold (l : list xq) (t : sum_order) :
  sum_b64 (fold_left (fun t x => Plus t (Term x)) l t)
  = fold_left B64.add l (sum_b64 t)
  /\ terms_of (fold_left (fun t x => Plus t (Term x)) l t) = terms_of t ++ l.
Proof.
  revert t. induction l as [| x l IH]; intros t; simpl.
  - split; [reflexivity | now rewrite app_nil_r].
  - destruct (IH (Plus t (Term x))) as [H1 H2]. rewrite H1, H2. simpl.
    split; [reflexivity | now rewrite <- app_assoc].
Qed.

(** The sum in row order is one of the orders. *)
Lemma series_sum_b64_order (ps : list Q) :
  series_sum_b64 (map Fin ps) = sum_b64 (row_order (map Fin ps))
  /\ terms_of (row_order (map Fin ps)) = Fin 0 :: map Fin ps.
Proof.
  unfold series_sum_b64, row_order. rewrite filter_nan_finite.
  destruct (row_order_fold (map Fin ps) (Term (Fin 0))) as [H1 H2].
  rewrite H1, H2. split; reflexivity.
Qed.

Lemma table_rows_ok (tbl : list drift_row) :
  Forall (fun r => (0 < bin_count r)%nat) tbl ->
  Forall (fun r => drift_in_range (hr_drift_bpm r) = true) tbl ->
  Forall (fun r => (0 < bin_count r)%nat
                   /\ (bin_count r <= count_sum (map bin_count tbl))%nat
                   /\ drift_in_range (hr_drift_bpm r) = true) tbl.
Proof.
  intros Hpos Hrange.
  pose proof (count_le_sum (map bin_count tbl)) as Hle.
  apply (proj1 (List.Forall_map _ _ _)) in Hle.
  rewrite List.Forall_forall in *. intros r Hr. auto.
Qed.

Lemma weighted_terms_b64_finite (tbl : list drift_row) :
  Forall (fun r => (0 < bin_count r)%nat) tbl ->
  (Z.of_nat (count_sum (map bin_count tbl)) < 2 ^ 51)%Z ->
  Forall (fun r => drift_in_range (hr_drift_bpm r) = true) tbl ->
  exists ps : list Q,
    weighted_terms_b64 tbl = map Fin ps
    /\ length ps = length tbl
    /\ Forall on_grid (map Fin ps)
    /\ Qabs (sumQ ps
             - sumQ (weighted_terms (Qnat (count_sum (map bin_count tbl))) tbl))
       <= (gpow 2 - 1)
          * sumQ (map Qabs
                    (weighted_terms (Qnat (count_sum (map bin_count tbl))) tbl))
    /\ sumQ (map Qabs ps)
       <= gpow 2
          * sumQ (map Qabs
                    (weighted_terms (Qnat (count_sum (map bin_count tbl))) tbl)).
Proof.
  intros Hpos Htot Hrange.
  apply (weighted_terms_b64_error (count_sum (map bin_count tbl)) tbl).
  - lia.
  - apply table_rows_ok; assumption.
Qed.

Lemma abs_drifts_bound (tbl : list drift_row) :
  tbl <> [] ->
  Forall (fun r => drift_in_range (hr_drift_bpm r) = true) tbl ->
  max_list (map Qabs (bucket_drifts tbl)) <= pow2 900.
Proof.
  intros Hne Hrange. apply max_list_bound.
  - destruct tbl; [congruence | discriminate].
  - unfold bucket_drifts. apply List.Forall_map, List.Forall_map.
    eapply Forall_impl; [exact Hrange |]. intros r Hr. cbn beta in *.
    destruct (drift_in_range_cases _ Hr) as (d & -> & [H0 | [_ H]]).
    + cbn [finite_part]. rewrite H0. change (Qabs 0) with 0.
      apply Qlt_le_weak, pow2_pos.
    + exact H.
Qed.

(** Whatever the order of the additions, the sum of the series is finite
    and close to the exact weighted average. *)
Lemma sum_order_average (tbl : list drift_row) (t : sum_order) :
  tbl <> [] ->
  Forall (fun r => (0 < bin_count r)%nat) tbl ->
  (Z.of_nat (count_sum (map bin_count tbl)) < 2 ^ 51)%Z ->
  Forall (fun r => drift_in_range (hr_drift_bpm r) = true) tbl ->
  Permutation (terms_of t) (weighted_terms_b64 tbl)
  \/ Permutation (terms_of t) (Fin 0 :: weighted_terms_b64 tbl) ->
  exists v : Q,
    sum_b64 t = Fin v
    /\ Qabs (v - drift_count_sum tbl / total_count tbl)
       <= inject_Z (Z.of_nat (length tbl) + 2) * pow2 (-52)
          * max_list (map Qabs (bucket_drifts tbl)).
Proof.
  intros Hne Hpos Htot Hrange Hperm.
  destruct (weighted_terms_b64_finite tbl Hpos Htot Hrange)
    as (ps & Eps & Hlen & Hgrid & Herr & Habs).
  rewrite Eps in Hperm.
  pose proof (total_count_pos tbl Hne Hpos) as Htc.
  pose proof (total_count_sum tbl) as Hsum.
  pose proof (length_le_count_sum (map bin_count tbl)
                ltac:(apply List.Forall_map; exact Hpos)) as Hlc.
  rewrite length_map in Hlc.
  set (S := count_sum (map bin_count tbl)) in *.
  set (n := length tbl) in *.
  set (s := Qnat S) in *.
  set (M := max_list (map Qabs (bucket_drifts tbl))).
  set (T := sumQ (map Qabs (weighted_terms s tbl))) in *.
  set (a' := sumQ (weighted_terms s tbl)) in *.
  assert (Hs : 0 < s) by lra.
  assert (Ha : drift_count_sum tbl / total_count tbl == a').
  { unfold a'. rewrite weighted_terms_sum by lra. rewrite Hsum. reflexivity. }
  assert (HT0 : 0 <= T) by apply sumQ_abs_nonneg.
  assert (HTM : T <= M).
  { pose proof (abs_terms_bound s M tbl Hs) as Hb.
    assert (Hone : total_count tbl / s == 1) by (rewrite Hsum; field; lra).
    rewrite Hone in Hb.
    assert (Hall : Forall (fun r => Qabs (finite_part (hr_drift_bpm r)) <= M)
                     tbl).
    { pose proof (max_list_ge (map Qabs (bucket_drifts tbl))) as Hm.
      unfold bucket_drifts in Hm.
      apply (proj1 (List.Forall_map _ _ _)) in Hm.
      apply (proj1 (List.Forall_map _ _ _)) in Hm. exact Hm. }
    specialize (Hb Hall). fold T in Hb. lra. }
  pose proof (abs_drifts_bound tbl Hne Hrange) as HM. fold M in HM.
  (* growth of the error over n + 2 roundings *)
  pose proof unit_roundoff_pos as Hu.
  set (K := 2 * Qnat (n + 2) * unit_roundoff).
  assert (HK0 : 0 <= K).
  { unfold K. pose proof (Qnat_nonneg (n + 2)).
    assert (0 <= Qnat (n + 2) * unit_roundoff)
      by (apply Qmult_le_0_compat; lra).
    lra. }
  assert (HK1 : K <= 1).
  { unfold K.
    assert (Hq : Qnat (n + 2) <= pow2 52) by (apply Qnat_below; lia).
    assert (Qnat (n + 2) * unit_roundoff <= pow2 52 * unit_roundoff)
      by (apply Qmult_le_compat_r; lra).
    assert (2 * pow2 52 * unit_roundoff == 1) by reflexivity.
    lra. }
  pose proof (gpow_linear (n + 2) HK1) as HG. fold K in HG.
  pose proof (gpow_add n 2) as HGadd.
  pose proof (gpow_ge_1 n) as Hgn. pose proof (gpow_ge_1 2) as Hg2.
  set (G := gpow (n + 2)) in *. set (gn := gpow n) in *.
  set (g2 := gpow 2) in *.
  (* the leaves of the tree *)
  set (Sp := sumQ ps) in *. set (Ap := sumQ (map Qabs ps)) in *.
  assert (Hleaves : Forall on_grid (terms_of t)
                    /\ sum_fin (terms_of t) == Sp
                    /\ sum_abs (terms_of t) == Ap
                    /\ (plus_count t <= n)%nat).
  { assert (H0 : on_grid (Fin 0)).
    { exists 0, 0%Z. split; [reflexivity | ring]. }
    pose proof (terms_of_length t) as Hlt.
    destruct Hperm as [Hp | Hp].
    - split; [eapply Permutation_Forall; [symmetry; exact Hp | exact Hgrid] |].
      split; [| split].
      + unfold sum_fin. rewrite (sumQ_map_perm _ _ _ Hp).
        fold (sum_fin (map Fin ps)). rewrite sum_fin_Fin. reflexivity.
      + unfold sum_abs. rewrite (sumQ_map_perm _ _ _ Hp).
        fold (sum_abs (map Fin ps)). rewrite sum_abs_Fin. reflexivity.
      + apply Permutation_length in Hp.
        rewrite length_map, Hlen in Hp. fold n in Hp. lia.
    - split; [eapply Permutation_Forall;
               [symmetry; exact Hp | constructor; assumption] |].
      split; [| split].
      + unfold sum_fin. rewrite (sumQ_map_perm _ _ _ Hp).
        fold (sum_fin (Fin 0 :: map Fin ps)).
        change (sum_fin (Fin 0 :: map Fin ps))
          with (0 + sum_fin (map Fin ps)).
        rewrite sum_fin_Fin. fold Sp. ring.
      + unfold sum_abs. rewrite (sumQ_map_perm _ _ _ Hp).
        fold (sum_abs (Fin 0 :: map Fin ps)).
        change (sum_abs (Fin 0 :: map Fin ps))
          with (Qabs 0 + sum_abs (map Fin ps)).
        rewrite sum_abs_Fin. fold Ap. change (Qabs 0) with 0. ring.
      + apply Permutation_length in Hp. cbn [length] in Hp.
        rewrite length_map, Hlen in Hp. fold n in Hp. lia. }
  destruct Hleaves as (Hg & HSp & HAp & Hpc).
  pose proof (gpow_mono _ _ Hpc) as Hgp. fold gn in Hgp.
  pose proof (gpow_ge_1 (plus_count t)) as Hgp1.
  set (gp := gpow (plus_count t)) in *.
  assert (HAp0 : 0 <= Ap) by apply sumQ_abs_nonneg.
  assert (HGT : gn * g2 * T == G * T) by (rewrite <- HGadd; reflexivity).
  assert (P1 : 0 <= (gn - gp) * Ap) by (apply Qmult_le_0_compat; lra).
  assert (P2 : 0 <= (gn - 1) * (g2 * T - Ap))
    by (apply Qmult_le_0_compat; lra).
  assert (P3 : 0 <= (1 + K - G) * T) by (apply Qmult_le_0_compat; lra).
  assert (P4 : 0 <= K * (M - T)) by (apply Qmult_le_0_compat; lra).
  assert (P5 : 0 <= g2 * T) by (apply Qmult_le_0_compat; lra).
  assert (P6 : 0 <= (1 - K) * T) by (apply Qmult_le_0_compat; lra).
  assert (H900 : 2 * pow2 900 <= pow2 1023).
  { change 2 with (pow2 1). rewrite <- pow2_add. apply pow2_le. lia. }
  destruct (sum_order_error t Hg) as (v & Ev & _ & Hv).
  { fold gp. rewrite HAp. lra. }
  fold gp in Hv. rewrite HSp, HAp in Hv.
  exists v. split; [exact Ev |].
  rewrite Ha.
  assert (HE : inject_Z (Z.of_nat n + 2) * pow2 (-52) * M == K * M).
  { unfold K, Qnat. rewrite Nat2Z.inj_add. change (Z.of_nat 2) with 2%Z.
    assert (H2 : pow2 (-52) == 2 * unit_roundoff) by reflexivity.
    rewrite H2. ring. }
  rewrite HE.
  pose proof (Qabs_triangle (v - Sp) (Sp - a')) as Tr.
  assert (Hs' : v - Sp + (Sp - a') == v - a') by ring.
  rewrite Hs' in Tr. lra.
Qed.

(** The exact weighted average lies between the smallest and the largest
    drift. *)
Lemma exact_average_within_bounds (tbl : list drift_row) :
  tbl <> [] ->
  Forall (fun r => (0 < bin_count r)%nat) tbl ->
  min_list (bucket_drifts tbl) <= drift_count_sum tbl / total_count tbl
  /\ drift_count_sum tbl / total_count tbl <= max_list (bucket_drifts tbl).
Proof.
  intros Hne Hpos.
  pose proof (total_count_pos tbl Hne Hpos) as Htot.
  assert (Hone : total_count tbl / total_count tbl == 1) by (field; lra).
  pose proof (weighted_terms_sum (total_count tbl) tbl ltac:(lra)) as Hsum.
  split.
  - pose proof (weighted_terms_lower (total_count tbl)
                  (min_list (bucket_drifts tbl)) tbl Htot) as Hlo.
    rewrite Hone in Hlo.
    assert (Hall : Forall (fun r => min_list (bucket_drifts tbl)
                                    <= finite_part (hr_drift_bpm r)) tbl).
    { pose proof (min_list_le (bucket_drifts tbl)) as Hm.
      apply (proj1 (List.Forall_map _ _ _)) in Hm. exact Hm. }
    specialize (Hlo Hall). lra.
  - pose proof (weighted_terms_upper (total_count tbl)
                  (max_list (bucket_drifts tbl)) tbl Htot) as Hhi.
    rewrite Hone in Hhi.
    assert (Hall : Forall (fun r => finite_part (hr_drift_bpm r)
                                    <= max_list (bucket_drifts tbl)) tbl).
    { pose proof (max_list_ge (bucket_drifts tbl)) as Hm.
      apply (proj1 (List.Forall_map _ _ _)) in Hm. exact Hm. }
    specialize (Hhi Hall). lra.
Qed.

(** C7 (as the code computes it): drifts 3 and 3 with counts 54 and 126.
    Both buckets have drift 3, so the quotient of the two sums, the
    smallest and the largest drift are all 3; the value computed in
    binary64 is 3 - 2^-51 (printed 2.9999999999999996), below the smallest
    drift and different from the quotient. *)
Lemma weighted_average_below_minimum :
  exists v : Q,
    avg_drift_b64 [ex_row 10 3 54; ex_row 11 3 126] = Fin v
    /\ v == 3 - pow2 (-51)
    /\ drift_count_sum [ex_row 10 3 54; ex_row 11 3 126]
       / total_count [ex_row 10 3 54; ex_row 11 3 126] == 3
    /\ min_list (bucket_drifts [ex_row 10 3 54; ex_row 11 3 126]) == 3
    /\ v < min_list (bucket_drifts [ex_row 10 3 54; ex_row 11 3 126]).
Proof.
  exists (6755399441055743 # 2251799813685248).
  split; [vm_compute; reflexivity |].
  repeat split; vm_compute; reflexivity.
Qed.

(** C7 (amended): for a non-empty drift table with positive counts (fewer
    than 2^51 samples in all) and drifts that are zero or of magnitude
    between 2^-900 and 2^900, the quotient of the sum of drift times count
    by the sum of the counts lies between the smallest and the largest
    bucket drift; the average that line 71 computes in binary64 is a finite
    number within (n + 2) * 2^-52 * (largest magnitude of a drift) of that
    quotient, [n] being the number of buckets, and so is the sum of the
    same terms added in any other order. *)
Theorem weighted_average_rounded (tbl : list drift_row) :
  tbl <> [] ->
  Forall (fun r => (0 < bin_count r)%nat) tbl ->
  (Z.of_nat (count_sum (map bin_count tbl)) < 2 ^ 51)%Z ->
  Forall (fun r => drift_in_range (hr_drift_bpm r) = true) tbl ->
  let a := drift_count_sum tbl / total_count tbl in
  let E := inject_Z (Z.of_nat (length tbl) + 2) * pow2 (-52)
           * max_list (map Qabs (bucket_drifts tbl)) in
  min_list (bucket_drifts tbl) <= a
  /\ a <= max_list (bucket_drifts tbl)
  /\ (exists v : Q, avg_drift_b64 tbl = Fin v /\ Qabs (v - a) <= E)
  /\ (forall t : sum_order,
        Permutation (terms_of t) (weighted_terms_b64 tbl)
        \/ Permutation (terms_of t) (Fin 0 :: weighted_terms_b64 tbl) ->
        exists v : Q, sum_b64 t = Fin v /\ Qabs (v - a) <= E).
Proof.
  intros Hne Hpos Htot Hrange a E.
  destruct (exact_average_within_bounds tbl Hne Hpos) as [Hlo Hhi].
  split; [exact Hlo |]. split; [exact Hhi |]. split.
  - destruct (weighted_terms_b64_finite tbl Hpos Htot Hrange)
      as (ps & Eps & _).
    destruct (series_sum_b64_order ps) as [H1 H2].
    unfold avg_drift_b64. rewrite Eps, H1.
    apply (sum_order_average tbl (row_order (map Fin ps))); try assumption.
    right. rewrite H2, Eps. reflexivity.
  - intros t Hp. apply sum_order_average; assumption.
Qed.

Lemma weighted_average_rounded_witness :
  let tbl := [ex_row 10 3 54; ex_row 11 3 126] in
  let a := drift_count_sum tbl / total_count tbl in
  let E := inject_Z (Z.of_nat (length tbl) + 2) * pow2 (-52)
           * max_list (map Qabs (bucket_drifts tbl)) in
  min_list (bucket_drifts tbl) <= a
  /\ a <= max_list (bucket_drifts tbl)
  /\ (exists v : Q, avg_drift_b64 tbl = Fin v /\ Qabs (v - a) <= E)
  /\ (forall t : sum_order,
        Permutation (terms_of t) (weighted_terms_b64 tbl)
        \/ Permutation (terms_of t) (Fin 0 :: weighted_terms_b64 tbl) ->
        exists v : Q, sum_b64 t = Fin v /\ Qabs (v - a) <= E).
Proof.
  apply (weighted_average_rounded [ex_row 10 3 54; ex_row 11 3 126]).
  - discriminate.
  - repeat constructor; simpl; lia.
  - vm_compute. reflexivity.
  - apply List.Forall_forall. intros r [<- | [<- | []]]; vm_compute;
      reflexivity.
Defined.

(** ** The rounding model and the machine *)

(** On every pair of the sample operands, addition, multiplication and
    division of machine floats give the rounded exact result. *)
Lemma b64_agrees_with_machine :
  forallb (fun x => forallb (machine_agrees x) machine_samples)
          machine_samples = true.
Proof. vm_compute. reflexivity. Qed.

(** The machine computes the average of the table with drifts 3, 3 and
    counts 54, 126 as the model does: a number below 3. *)
Lemma machine_average_below_minimum :
  xq_eqb (float_to_xq (0 + 3 * (54 / 180) + 3 * (126 / 180))%float)
         (avg_drift_b64 [ex_row 10 3 54; ex_row 11 3 126]) = true
  /\ PrimFloat.ltb (0 + 3 * (54 / 180) + 3 * (126 / 180))%float 3%float = true.
Proof. split; vm_compute; reflexivity. Qed.

(** ** The order of the rows *)

Lemma count_sum_perm (l l' : list nat) :
  Permutation l l' -> count_sum l = count_sum l'.
Proof.
  induction 1 as [| x l1 l2 _ IH | x y l | l1 l2 l3 _ IH1 _ IH2].
  - reflexivity.
  - rewrite !count_sum_cons, IH. reflexivity.
  - rewrite !count_sum_cons. lia.
  - congruence.
Qed.

Lemma weighted_terms_b64_perm (tbl tbl' : list drift_row) :
  Permutation tbl tbl' ->
  Permutation (weighted_terms_b64 tbl) (weighted_terms_b64 tbl').
Proof.
  intros Hp. unfold weighted_terms_b64. cbv zeta.
  rewrite (count_sum_perm _ _ (Permutation_map bin_count Hp)).
  apply Permutation_map. exact Hp.
Qed.

Lemma filter_nan_none (l : list xq) :
  Forall (fun x => XQ.is_nan x = false) l ->
  List.filter (fun x => negb (XQ.is_nan x)) l = l.
Proof.
  induction 1 as [| x l Hx _ IH]; simpl; [reflexivity |].
  rewrite Hx, IH. reflexivity.
Qed.

Lemma series_sum_b64_row_order (l : list xq) :
  Forall (fun x => XQ.is_nan x = false) l ->
  series_sum_b64 l = sum_b64 (row_order l)
  /\ terms_of (row_order l) = Fin 0 :: l.
Proof.
  intros Hl. unfold series_sum_b64, row_order. rewrite (filter_nan_none l Hl).
  destruct (row_order_fold l (Term (Fin 0))) as [H1 H2].
  rewrite H1, H2. split; reflexivity.
Qed.

(** X17: the computed average depends on the order of the rows, but only
    in the last bits.  Two orders of the same table (non-empty, positive
    counts, fewer than 2^51 samples, drifts zero or of magnitude between
    2^-900 and 2^900) give finite averages at most
    2 * (n + 2) * 2^-52 * (largest magnitude of a drift) apart; drifts 1, 2,
    3 with 60 samples each give 2, and 2 - 2^-52 (printed
    1.9999999999999998) with the rows reversed. *)
Theorem average_order_sensitivity :
  (forall tbl tbl' : list drift_row,
     Permutation tbl tbl' ->
     tbl <> [] ->
     Forall (fun r => (0 < bin_count r)%nat) tbl ->
     (Z.of_nat (count_sum (map bin_count tbl)) < 2 ^ 51)%Z ->
     Forall (fun r => drift_in_range (hr_drift_bpm r) = true) tbl ->
     exists v v' : Q,
       avg_drift_b64 tbl = Fin v /\ avg_drift_b64 tbl' = Fin v'
       /\ Qabs (v - v')
          <= 2 * (inject_Z (Z.of_nat (length tbl) + 2) * pow2 (-52)
                  * max_list (map Qabs (bucket_drifts tbl))))
  /\ (exists v v' : Q,
        avg_drift_b64 [ex_row 10 1 60; ex_row 11 2 60; ex_row 12 3 60] = Fin v
        /\ avg_drift_b64 [ex_row 12 3 60; ex_row 11 2 60; ex_row 10 1 60]
           = Fin v'
        /\ v == 2 /\ v' == 2 - pow2 (-52)).
Proof.
  split.
  - intros tbl tbl' Hp Hne Hpos Htot Hrange.
    destruct (weighted_terms_b64_finite tbl Hpos Htot Hrange)
      as (ps & Eps & _).
    pose proof (weighted_terms_b64_perm tbl tbl' Hp) as HL.
    assert (Hnn : Forall (fun x => XQ.is_nan x = false)
                    (weighted_terms_b64 tbl)).
    { rewrite Eps. apply List.Forall_map, List.Forall_forall. reflexivity. }
    assert (Hnn' : Forall (fun x => XQ.is_nan x = false)
                     (weighted_terms_b64 tbl')).
    { eapply Permutation_Forall; [exact HL | exact Hnn]. }
    destruct (series_sum_b64_row_order _ Hnn) as [H1 H2].
    destruct (series_sum_b64_row_order _ Hnn') as [H1' H2'].
    destruct (sum_order_average tbl (row_order (weighted_terms_b64 tbl))
                Hne Hpos Htot Hrange) as (v & Ev & Hv).
    { right. rewrite H2. reflexivity. }
    destruct (sum_order_average tbl (row_order (weighted_terms_b64 tbl'))
                Hne Hpos Htot Hrange) as (v' & Ev' & Hv').
    { right. rewrite H2'. constructor. symmetry. exact HL. }
    exists v, v'. unfold avg_drift_b64. rewrite H1, H1'.
    split; [exact Ev |]. split; [exact Ev' |].
    set (a := drift_count_sum tbl / total_count tbl) in *.
    set (E := inject_Z _ * _ * _) in *.
    pose proof (Qabs_triangle (v - a) (a - v')) as Tr.
    assert (Hs : v - a + (a - v') == v - v') by ring.
    rewrite Hs in Tr.
    assert (Ho : Qabs (a - v') == Qabs (v' - a)).
    { rewrite <- Qabs_opp. apply Qabs_wd. ring. }
    lra.
  - exists (4503599627370496 # 2251799813685248),
           (9007199254740991 # 4503599627370496).
    repeat split; vm_compute; reflexivity.
Qed.

Lemma average_order_sensitivity_witness :
  exists v v' : Q,
    avg_drift_b64 [ex_row 10 1 60; ex_row 11 2 60; ex_row 12 3 60] = Fin v
    /\ avg_drift_b64 [ex_row 12 3 60; ex_row 11 2 60; ex_row 10 1 60] = Fin v'
    /\ Qabs (v - v')
       <= 2 * (inject_Z
                 (Z.of_nat
                    (length [ex_row 10 1 60; ex_row 11 2 60; ex_row 12 3 60])
                  + 2)
               * pow2 (-52)
               * max_list
                   (map Qabs
                      (bucket_drifts
                         [ex_row 10 1 60; ex_row 11 2 60; ex_row 12 3 60]))).
Proof.
  apply (proj1 average_order_sensitivity
           [ex_row 10 1 60; ex_row 11 2 60; ex_row 12 3 60]
           [ex_row 12 3 60; ex_row 11 2 60; ex_row 10 1 60]).
  - change [ex_row 12 3 60; ex_row 11 2 60; ex_row 10 1 60]
      with (rev [ex_row 10 1 60; ex_row 11 2 60; ex_row 12 3 60]).
    apply Permutation_rev.
  - discriminate.
  - repeat constructor; simpl; lia.
  - vm_compute. reflexivity.
  - apply List.Forall_forall. intros r [<- | [<- | [<- | []]]]; vm_compute;
      reflexivity.
Defined.

(** ** The stored average *)

(** Zero and the normal range are rounded with relative error 2^-53. *)
Lemma b64_in_range (q : Q) :
  q == 0 \/ pow2 (-1022) <= Qabs q /\ Qabs q <= pow2 1023 ->
  b64 q = Fin (b64_fin q)
  /\ Qabs (b64_fin q - q) <= unit_roundoff * Qabs q.
Proof.
  intros H.
  assert (He : Qabs (b64_fin q - q) <= unit_roundoff * Qabs q
               /\ Qabs q <= pow2 1023).
  { destruct H as [H0 | [Hlo Hhi]].
    - rewrite (b64_fin_zero q H0).
      assert (Hz : 0 - q == 0) by (rewrite H0; ring).
      rewrite Hz, H0. change (Qabs 0) with 0.
      pose proof (pow2_pos 1023). split; lra.
    - split; [apply b64_fin_error_normal; exact Hlo | exact Hhi]. }
  destruct He as [He Hfin]. split; [apply b64_finite; assumption | exact He].
Qed.

Lemma Qabs_inject_Z_ge_1 (z : Z) : z <> 0%Z -> 1 <= Qabs (inject_Z z).
Proof.
  intros Hz. unfold Qabs, inject_Z, Qle. simpl. lia.
Qed.

Lemma numpy_round1 (x : Q) :
  drift_in_range (Fin x) = true ->
  exists (z : Z) (r : Q),
    round1_b64 (Fin x) = Fin r
    /\ r = b64_fin (inject_Z z / 10)
    /\ Qabs (r - inject_Z z / 10) <= unit_roundoff * Qabs (inject_Z z / 10)
    /\ Qabs (inject_Z z / 10 - x) <= (1 # 20) + unit_roundoff * Qabs x.
Proof.
  intros Hx.
  destruct (drift_in_range_cases _ Hx) as (x' & Ex & Hr).
  injection Ex as <-.
  pose proof unit_roundoff_pos as Hu.
  assert (Hu1 : unit_roundoff <= 1 # 2).
  { apply Qle_bool_iff. vm_compute. reflexivity. }
  pose proof (Qabs_nonneg x) as Hax.
  assert (Ha10 : Qabs (x * 10) == 10 * Qabs x).
  { rewrite Qabs_Qmult. change (Qabs 10) with 10. ring. }
  assert (Hax900 : Qabs x <= pow2 900).
  { destruct Hr as [H0 | [_ H]]; [| exact H].
    rewrite H0. change (Qabs 0) with 0. apply Qlt_le_weak, pow2_pos. }
  assert (H904 : 16 * pow2 900 == pow2 904).
  { change 16 with (pow2 4). rewrite <- pow2_add. reflexivity. }
  assert (H1023 : pow2 905 <= pow2 1023) by (apply pow2_le; lia).
  assert (H905 : pow2 905 == 2 * pow2 904).
  { change 2 with (pow2 1). rewrite <- pow2_add. reflexivity. }
  (* the product *)
  destruct (b64_in_range (x * 10)) as [Ey Hy].
  { destruct Hr as [H0 | [Hlo Hhi]]; [left; rewrite H0; ring | right].
    rewrite Ha10. split; [| lra].
    assert (pow2 (-1022) <= pow2 (-900)) by (apply pow2_le; lia).
    lra. }
  set (y := b64_fin (x * 10)) in *.
  rewrite Ha10 in Hy.
  assert (Huax : 0 <= unit_roundoff * Qabs x)
    by (apply Qmult_le_0_compat; lra).
  assert (Huax1 : unit_roundoff * Qabs x <= (1 # 2) * Qabs x)
    by (apply Qmult_le_compat_r; lra).
  apply Qabs_Qle_condition in Hy. destruct Hy as [Hy1 Hy2].
  (* the integer *)
  destruct (round_half_even_near y) as [Hz1 Hz2].
  set (z := round_half_even y) in *.
  assert (Hdiv : inject_Z z / 10 == inject_Z z * (1 # 10))
    by (unfold Qdiv; reflexivity).
  assert (Hxa : - Qabs x <= x /\ x <= Qabs x).
  { apply Qabs_Qle_condition. lra. }
  assert (Hq3 : Qabs (inject_Z z / 10) <= pow2 1023).
  { rewrite Hdiv. apply Qabs_Qle_condition.
    assert (1 <= pow2 900) by (change 1 with (pow2 0); apply pow2_le; lia).
    split; lra. }
  (* the quotient *)
  destruct (b64_in_range (inject_Z z / 10)) as [Er Hr3].
  { destruct (Z.eq_dec z 0%Z) as [E0 | E0].
    - left. rewrite E0. reflexivity.
    - right. split; [| exact Hq3].
      pose proof (Qabs_inject_Z_ge_1 z E0) as H1.
      assert (Hq : Qabs (inject_Z z / 10) == Qabs (inject_Z z) * (1 # 10)).
      { rewrite Hdiv, Qabs_Qmult. reflexivity. }
      rewrite Hq.
      assert (pow2 (-1022) <= 1 # 10).
      { apply Qle_bool_iff. vm_compute. reflexivity. }
      lra. }
  exists z, (b64_fin (inject_Z z / 10)).
  split; [| split; [reflexivity | split; [exact Hr3 |]]].
  - unfold round1_b64, B64.mul. cbn [XQ.mul B64.round]. rewrite Ey.
    cbn [rint]. fold z. exact Er.
  - rewrite Hdiv. apply Qabs_Qle_condition. split; lra.
Qed.

(** X4: the average stored in the record (line 106) is numpy's
    [round(avg, 1)]: the average times 10 rounded to binary64, then to the
    nearest integer [z] (ties to even), then [z / 10] rounded to binary64.
    For an average that is zero or of magnitude between 2^-900 and 2^900
    the stored value is the binary64 number nearest to [z / 10], and
    [z / 10] is within 0.05 + 2^-53 * |avg| of the average; an infinite or
    undefined average is stored as it is.  The stored tenth is not always
    the one nearest to the average: the binary64 number 0.35, which is
    below 35/100 and nearer to 0.3, is stored as 0.4. *)
Theorem stored_average_rounded :
  (forall x : Q,
     drift_in_range (Fin x) = true ->
     exists (z : Z) (r : Q),
       round1_b64 (Fin x) = Fin r
       /\ r = b64_fin (inject_Z z / 10)
       /\ Qabs (r - inject_Z z / 10)
          <= unit_roundoff * Qabs (inject_Z z / 10)
       /\ Qabs (inject_Z z / 10 - x) <= (1 # 20) + unit_roundoff * Qabs x)
  /\ (forall x : xq, is_finite x = false -> round1_b64 x = x)
  /\ (exists x r : Q,
        b64 (35 # 100) = Fin x /\ x < 35 # 100
        /\ Qabs (x - (3 # 10)) < Qabs (x - (4 # 10))
        /\ round1_b64 (Fin x) = Fin r /\ b64 (4 # 10) = Fin r).
Proof.
  split; [exact numpy_round1 |]. split.
  - intros [q | | |] H; [discriminate | reflexivity ..].
  - exists (6305039478318694 # 18014398509481984),
           (7205759403792794 # 18014398509481984).
    repeat split; vm_compute; reflexivity.
Qed.

Lemma stored_average_rounded_witness :
  exists (z : Z) (r : Q),
    round1_b64 (Fin (347 # 100)) = Fin r
    /\ r = b64_fin (inject_Z z / 10)
    /\ Qabs (r - inject_Z z / 10) <= unit_roundoff * Qabs (inject_Z z / 10)
    /\ Qabs (inject_Z z / 10 - (347 # 100))
       <= (1 # 20) + unit_roundoff * Qabs (347 # 100).
Proof.
  apply (proj1 stored_average_rounded (347 # 100)).
  vm_compute. reflexivity.
Defined.

(** ** Decisions on the computed average *)

(** The value of the weighted average in exact arithmetic. *)
Lemma avg_drift_value (tbl : list drift_row) :
  tbl <> [] ->
  Forall (fun r => (0 < bin_count r)%nat) tbl ->
  Forall (fun r => is_finite (hr_drift_bpm r) = true) tbl ->
  exists q : Q,
    avg_drift tbl = Fin q
    /\ q == drift_count_sum tbl / total_count tbl.
Proof.
  intros Hne Hpos Hfin.
  pose proof (total_count_pos tbl Hne Hpos) as Htot.
  pose proof (total_count_sum tbl) as Hsum.
  set (n := count_sum (map bin_count tbl)) in *.
  assert (Hn : (0 < n)%nat).
  { destruct (Nat.eq_dec n 0%nat) as [E | E]; [| lia].
    exfalso. rewrite E in Hsum. change (Qnat 0) with 0 in Hsum. lra. }
  pose proof (series_sum_finite (weighted_terms (Qnat n) tbl)) as Havg.
  rewrite <- (avg_drift_terms n tbl Hn Hfin) in Havg.
  change (series_sum _) with (avg_drift tbl) in Havg.
  destruct (avg_drift tbl) as [q | | |]; simpl in Havg; try contradiction.
  exists q. split; [reflexivity |].
  rewrite Havg, weighted_terms_sum by lra. rewrite Hsum. reflexivity.
Qed.

(** Two values on the same side of a threshold compare with it alike. *)
Lemma same_side (v a t : Q) :
  Qabs (v - a) < Qabs (a - t) ->
  XQ.Qltb v t = XQ.Qltb a t /\ Qle_bool v t = Qle_bool a t.
Proof.
  intros H.
  assert (Hva : - Qabs (a - t) < v - a /\ v - a < Qabs (a - t)).
  { apply Qabs_Qlt_condition. exact H. }
  destruct Hva as [H1 H2].
  destruct (Qlt_le_dec a t) as [Hlt | Hge].
  - assert (Ha : Qabs (a - t) == t - a).
    { rewrite <- Qabs_opp, Qabs_pos by lra. ring. }
    rewrite Ha in H2.
    assert (Hv : v < t) by lra.
    rewrite (proj2 (XQFacts.Qltb_lt v t) Hv), (proj2 (XQFacts.Qltb_lt a t) Hlt).
    rewrite (proj2 (Qle_bool_iff v t)) by lra.
    rewrite (proj2 (Qle_bool_iff a t)) by lra.
    split; reflexivity.
  - assert (Ha : Qabs (a - t) == a - t) by (apply Qabs_pos; lra).
    rewrite Ha in H1.
    assert (Hv : t < v) by lra.
    assert (Hat : t < a).
    { pose proof (Qabs_nonneg (v - a)). rewrite Ha in H. lra. }
    rewrite (proj2 (XQFacts.Qltb_ge v t)) by lra.
    rewrite (proj2 (XQFacts.Qltb_ge a t)) by lra.
    rewrite (proj2 (XQFacts.Qle_bool_gt v t) Hv), (proj2 (XQFacts.Qle_bool_gt a t) Hat).
    split; reflexivity.
Qed.

Lemma same_decision (v a : Q) (d : Z) :
  Forall (fun t => Qabs (v - a) < Qabs (a - t)) [3; 4; 5; 6; 8] ->
  categorize (Fin v) = categorize (Fin a)
  /\ (make_decision (Fin v) d).1.1 = (make_decision (Fin a) d).1.1
  /\ (make_decision (Fin v) d).1.2 = (make_decision (Fin a) d).1.2.
Proof.
  intros H.
  inversion H as [| ? ? H3 H']; subst. inversion H' as [| ? ? H4 H'']; subst.
  inversion H'' as [| ? ? H5 H''']; subst.
  inversion H''' as [| ? ? H6 H'''']; subst.
  inversion H'''' as [| ? ? H8 _]; subst.
  destruct (same_side v a 3 H3) as [L3 E3].
  destruct (same_side v a 4 H4) as [L4 E4].
  destruct (same_side v a 5 H5) as [L5 E5].
  destruct (same_side v a 6 H6) as [L6 E6].
  destruct (same_side v a 8 H8) as [L8 E8].
  unfold categorize, make_decision. cbn [XQ.ltb XQ.leb].
  rewrite L3, L4, L6, L8, E5, E8.
  split; [reflexivity |].
  destruct (XQ.Qltb a 3); [split; reflexivity |].
  destruct (Qle_bool a 5); [split; reflexivity |].
  destruct (Qle_bool a 8); split; reflexivity.
Qed.

Lemma decisions_respect_Qeq (q a : Q) (d : Z) :
  q == a ->
  categorize (Fin q) = categorize (Fin a)
  /\ (make_decision (Fin q) d).1.1 = (make_decision (Fin a) d).1.1
  /\ (make_decision (Fin q) d).1.2 = (make_decision (Fin a) d).1.2.
Proof.
  intros Hq.
  assert (HL : forall t, XQ.Qltb q t = XQ.Qltb a t).
  { intros t. unfold XQ.Qltb. f_equal.
    destruct (Qle_bool t q) eqn:E1, (Qle_bool t a) eqn:E2; try reflexivity.
    - apply Qle_bool_iff in E1. rewrite Hq in E1.
      apply Qle_bool_iff in E1. congruence.
    - apply Qle_bool_iff in E2. rewrite <- Hq in E2.
      apply Qle_bool_iff in E2. congruence. }
  assert (HE : forall t, Qle_bool q t = Qle_bool a t).
  { intros t.
    destruct (Qle_bool q t) eqn:E1, (Qle_bool a t) eqn:E2; try reflexivity.
    - apply Qle_bool_iff in E1. rewrite Hq in E1.
      apply Qle_bool_iff in E1. congruence.
    - apply Qle_bool_iff in E2. rewrite <- Hq in E2.
      apply Qle_bool_iff in E2. congruence. }
  unfold categorize, make_decision. cbn [XQ.ltb XQ.leb].
  rewrite !HL, !HE. split; [reflexivity |].
  destruct (XQ.Qltb a 3); [split; reflexivity |].
  destruct (Qle_bool a 5); [split; reflexivity |].
  destruct (Qle_bool a 8); split; reflexivity.
Qed.

(** X16: the record built from the exact average carries the category,
    the decision and the next duration that the code derives from the
    binary64 average, whenever the quotient of the two sums is farther from
    each of the thresholds 3, 4, 5, 6 and 8 than the error bound
    (n + 2) * 2^-52 * (largest magnitude of a drift).  At a threshold the
    two can differ: drifts 3 and 3 with counts 54 and 126 have the
    quotient 3 ("Excellent", "extend", +5) but the computed average is
    3 - 2^-51, which gives "Elite", "extend much", +10. *)
Theorem decision_off_threshold :
  (forall (tbl : list drift_row) (d : Z) (lbl : string),
     tbl <> [] ->
     Forall (fun r => (0 < bin_count r)%nat) tbl ->
     (Z.of_nat (count_sum (map bin_count tbl)) < 2 ^ 51)%Z ->
     Forall (fun r => drift_in_range (hr_drift_bpm r) = true) tbl ->
     let a := drift_count_sum tbl / total_count tbl in
     let E := inject_Z (Z.of_nat (length tbl) + 2) * pow2 (-52)
              * max_list (map Qabs (bucket_drifts tbl)) in
     Forall (fun t => E < Qabs (a - t)) [3; 4; 5; 6; 8] ->
     let r := generate_workout_decisions tbl d lbl in
     fitness_category r = categorize (avg_drift_b64 tbl)
     /\ decision r = (make_decision (avg_drift_b64 tbl) d).1.1
     /\ next_duration_min r = (make_decision (avg_drift_b64 tbl) d).1.2)
  /\ (let tbl := [ex_row 10 3 54; ex_row 11 3 126] in
      let r := generate_workout_decisions tbl 45 "2025-01-01" in
      drift_count_sum tbl / total_count tbl == 3
      /\ fitness_category r = "Excellent"
      /\ decision r = "extend" /\ next_duration_min r = 50%Z
      /\ categorize (avg_drift_b64 tbl) = "Elite"
      /\ (make_decision (avg_drift_b64 tbl) 45).1.1 = "extend much"
      /\ (make_decision (avg_drift_b64 tbl) 45).1.2 = 55%Z).
Proof.
  split.
  - intros tbl d lbl Hne Hpos Htot Hrange a E Hoff r.
    assert (Hfin : Forall (fun r => is_finite (hr_drift_bpm r) = true) tbl).
    { eapply Forall_impl; [exact Hrange |]. intros x Hx. cbn beta in *.
      destruct (drift_in_range_cases _ Hx) as (q & -> & _). reflexivity. }
    destruct (avg_drift_value tbl Hne Hpos Hfin) as (q & Eq & Hq).
    destruct (weighted_terms_b64_finite tbl Hpos Htot Hrange)
      as (ps & Eps & _).
    destruct (series_sum_b64_order ps) as [H1 H2].
    destruct (sum_order_average tbl (row_order (map Fin ps))
                Hne Hpos Htot Hrange) as (v & Ev & Hv).
    { right. rewrite H2, Eps. reflexivity. }
    assert (Eb : avg_drift_b64 tbl = Fin v).
    { unfold avg_drift_b64. rewrite Eps, H1. exact Ev. }
    fold a in Hq, Hv. fold E in Hv.
    destruct (decision_of_make tbl d lbl) as [Hd Hn].
    unfold r. rewrite category_of_categorize, Hd, Hn, Eq, Eb.
    destruct (decisions_respect_Qeq q a d Hq) as (C1 & C2 & C3).
    destruct (same_decision v a d) as (D1 & D2 & D3).
    { eapply Forall_impl; [exact Hoff |]. intros t Ht. cbn beta in *. lra. }
    rewrite C1, C2, C3, D1, D2, D3. repeat split; reflexivity.
  - cbv zeta. repeat split; vm_compute; reflexivity.
Qed.

Lemma decision_off_threshold_witness :
  let tbl := [ex_row 10 2 60; ex_row 11 6 30] in
  let r := generate_workout_decisions tbl 45 "2025-01-01" in
  fitness_category r = categorize (avg_drift_b64 tbl)
  /\ decision r = (make_decision (avg_drift_b64 tbl) 45).1.1
  /\ next_duration_min r = (make_decision (avg_drift_b64 tbl) 45).1.2.
Proof.
  apply (proj1 decision_off_threshold [ex_row 10 2 60; ex_row 11 6 30]).
  - discriminate.
  - repeat constructor; simpl; lia.
  - vm_compute. reflexivity.
  - apply List.Forall_forall. intros r [<- | [<- | []]]; vm_compute;
      reflexivity.
  - apply List.Forall_forall.
    intros t [<- | [<- | [<- | [<- | [<- | []]]]]]; vm_compute; reflexivity.
Defined.
